(** * safe-config-service: validation, queries and the safe-apps cache

    A shallow embedding of [src/chains/models.py], [src/chains/views.py]
    and [src/safe_apps/views.py].

    Conventions.
    - A Python [str] is a [string]; each character is one code point in
      the range U+0000..U+00FF, and the predicates of [str] ([isdigit],
      the white space of [strip]) are written out on that range.
    - A nullable model field is an [option]; Python's [None] is [None].
    - A Python [dict] is a [gmap]; a table read as a set is a [gset] of
      rows; a query result that is ordered or sliced is a [list].
    - [raise E] is the [Err] outcome of a [result].
    - The classes of Django and of the REST framework that the sources
      configure ([RegexValidator], [QuerySet], [OrderingFilter],
      [LimitOffsetPagination], [cache_page]) are embedded next to the
      code that uses them, with the behaviour of those libraries; time
      is a count of seconds handed to each request. *)

From Stdlib Require Import ZArith NArith Ascii String List Sorted Permutation.
From Stdlib Require Import DecimalString DecimalN OrderedTypeEx Lia Bool.
From stdpp Require Import base gmap strings list sets.

Local Open Scope string_scope.
Local Open Scope Z_scope.

(** ** Outcomes of fallible code *)

Inductive result (E A : Type) : Type :=
| Ok (a : A)
| Err (e : E).
Arguments Ok {E A} a.
Arguments Err {E A} e.

(** ** Python [str] *)

Module Str.

Definition ord (c : ascii) : N := N_of_ascii c.

Definition in_range (lo hi : N) (c : ascii) : bool :=
  (lo <=? ord c)%N && (ord c <=? hi)%N.

(** The characters "0" to "9" (Numeric_Type=Decimal below U+0100). *)
Definition isdecimal_char (c : ascii) : bool := in_range 48 57 c.

(** What [str.isdigit] counts as a digit: Numeric_Type Decimal or Digit.
    Below U+0100 these are "0".."9" and the superscripts two (U+00B2),
    three (U+00B3) and one (U+00B9). *)
Definition isdigit_char (c : ascii) : bool :=
  isdecimal_char c || (ord c =? 178)%N || (ord c =? 179)%N || (ord c =? 185)%N.

(** White space of [str.strip]: U+0009..U+000D, U+001C..U+001F, U+0020,
    U+0085 and U+00A0. *)
Definition isspace_char (c : ascii) : bool :=
  in_range 9 13 c || in_range 28 32 c || (ord c =? 133)%N || (ord c =? 160)%N.

(** [s.isdigit()]: at least one character and all of them digits. *)
Definition isdigit (s : string) : bool :=
  match s with
  | "" => false
  | _ => forallb isdigit_char (list_ascii_of_string s)
  end.

(** [s.isdecimal()] restricted to "0".."9": a non-empty run of decimal
    digits. *)
Definition isdecimal (s : string) : bool :=
  match s with
  | "" => false
  | _ => forallb isdecimal_char (list_ascii_of_string s)
  end.

Fixpoint lstrip (s : string) : string :=
  match s with
  | "" => ""
  | String c s' => if isspace_char c then lstrip s' else s
  end.

Fixpoint rstrip (s : string) : string :=
  match s with
  | "" => ""
  | String c s' =>
      match rstrip s' with
      | "" => if isspace_char c then "" else String c ""
      | r => String c r
      end
  end.

(** [s.strip()] *)
Definition strip (s : string) : string := rstrip (lstrip s).

(** [s.split(sep)] for a one-character separator. *)
Fixpoint split (sep : ascii) (s : string) : list string :=
  match s with
  | "" => [""]
  | String c s' =>
      if Ascii.eqb c sep then "" :: split sep s'
      else match split sep s' with
           | w :: ws => String c w :: ws
           | [] => [String c ""]
           end
  end.

(** [s.startswith(c)] for a one-character prefix. *)
Definition startswith (c : ascii) (s : string) : bool :=
  match s with
  | String c' _ => Ascii.eqb c' c
  | "" => false
  end.

(** [s[1:]] *)
Definition tail (s : string) : string :=
  match s with
  | String _ s' => s'
  | "" => ""
  end.

(** Truth value of a [str]: non-empty. *)
Definition truthy (s : string) : bool :=
  match s with "" => false | _ => true end.

(** [all(p(c) for c in s)] *)
Fixpoint all (p : ascii -> bool) (s : string) : bool :=
  match s with
  | "" => true
  | String c s' => p c && all p s'
  end.

(** [x in l] for a list of [str]. *)
Definition mem (x : string) (l : list string) : bool :=
  existsb (String.eqb x) l.

End Str.

(** ** The request: [request.query_params] *)

Module Request.

(** A [QueryDict]: the name=value pairs of the query string, in the
    order of the URL. *)
Abbreviation QueryDict := (list (string * string)).

(** [q.get(key)]: the last value given for [key]; [None] when the key is
    absent (where [q[key]] raises [KeyError]). *)
Fixpoint get (key : string) (q : QueryDict) : option string :=
  match q with
  | [] => None
  | (k, v) :: q' =>
      match get key q' with
      | Some v' => Some v'
      | None => if String.eqb k key then Some v else None
      end
  end.

Record t : Type := mk { query_params : QueryDict }.

End Request.

(** ** [chains/models.py] *)

Module Chain.

Inductive RpcAuthentication : Type := API_KEY_PATH | NO_AUTHENTICATION.

Record t : Type := mk {
  id : N;                               (* PositiveBigIntegerField, primary key *)
  relevance : Z;                        (* SmallIntegerField(default=100) *)
  name : string;
  short_name : string;                  (* unique *)
  description : string;
  l2 : bool;
  rpc_authentication : RpcAuthentication;
  rpc_uri : string;
  currency_name : string;
  currency_symbol : string;
  currency_decimals : Z;
  theme_text_color : string;
  theme_background_color : string;
  ens_registry_address : option string;
  recommended_master_copy_version : string
}.

End Chain.

Module Wallet.

Record t : Type := mk {
  id : N;                               (* implicit primary key *)
  key : string                          (* unique *)
}.

#[global] Instance eq_dec : EqDecision t.
Proof. solve_decision. Defined.

#[global] Instance countable : Countable t.
Proof.
  apply (inj_countable' (fun w => (id w, key w)) (fun p => mk (fst p) (snd p))).
  intros []; reflexivity.
Defined.

End Wallet.

Module GasPrice.

(** [django.core.exceptions.ValidationError] built from a dict: field
    name to message. *)
Abbreviation ValidationError := (gmap string string).

Record t : Type := mk {
  chain : N;                            (* ForeignKey(Chain) *)
  oracle_uri : option string;           (* URLField(blank=True, null=True) *)
  oracle_parameter : option string;     (* CharField(blank=True, null=True) *)
  gwei_factor : Z;                      (* DecimalField, in units of 10^-9 *)
  fixed_wei_value : option N;           (* Uint256Field(blank=True, null=True) *)
  rank : Z                              (* SmallIntegerField(default=100) *)
}.

(** [x is not None] *)
Definition is_not_None {A} (x : option A) : bool :=
  match x with Some _ => true | None => false end.

(** [x is None] *)
Definition is_None {A} (x : option A) : bool := negb (is_not_None x).

Definition msg_exclusive : string :=
  "An oracle uri or fixed gas price should be provided (but not both)".

Definition msg_parameter : string :=
  "The oracle parameter should be set".

(** The dict of the first [raise]. *)
Definition exclusive_error : ValidationError :=
  <["oracle_uri" := msg_exclusive]>
    (<["fixed_wei_value" := msg_exclusive]> ∅).

(** The dict of the second [raise]. *)
Definition parameter_error : ValidationError :=
  <["oracle_parameter" := msg_parameter]> ∅.

(** [GasPrice.clean]: the two checks in the order of the source, each
    raising as soon as it fails. *)
Definition clean (self : t) : result ValidationError unit :=
  if Bool.eqb (is_not_None (fixed_wei_value self))
              (is_not_None (oracle_uri self))
  then Err exclusive_error
  else if is_not_None (oracle_uri self) && is_None (oracle_parameter self)
  then Err parameter_error
  else Ok tt.

(** The exclusive-or invariant: exactly one of the two fields is set. *)
Definition exactly_one (g : t) : Prop :=
  (oracle_uri g <> None /\ fixed_wei_value g = None) \/
  (oracle_uri g = None /\ fixed_wei_value g <> None).

(** The fields an error reports. *)
Definition fields (e : ValidationError) : gset string := dom e.

End GasPrice.

(** ** The relational store *)

Module Store.

(** Modelled from the spec: the [SafeApp] entity of [safe_apps/models.py]
    (absent from the sources read here): a visibility flag, the list of
    chain ids the app supports and optional provider metadata. *)
Record SafeApp : Type := mkSafeApp {
  app_id : N;
  visible : bool;
  chain_ids : list N;
  provider : option string
}.

Record t : Type := mk {
  chain_table : list Chain.t;           (* rows as [Chain.objects.all()] yields them *)
  wallet_table : gset Wallet.t;
  wallet_chains : gset (N * N);         (* ManyToManyField: (wallet id, chain id) *)
  safe_app_table : list SafeApp
}.

(** [Wallet.objects.all()] *)
Definition all_wallets (db : t) : gset Wallet.t := wallet_table db.

(** [chain.wallet_set.all()]: the wallets related to the chain. *)
Definition wallet_set (db : t) (chain : Chain.t) : gset Wallet.t :=
  filter (fun w => (Wallet.id w, Chain.id chain) ∈ wallet_chains db)
         (wallet_table db).

(** [Chain.get_disabled_wallets]; [QuerySet.difference] is the store's
    set difference. *)
Definition get_disabled_wallets (db : t) (self : Chain.t) : gset Wallet.t :=
  let all_wallets := all_wallets db in
  let enabled_wallets := wallet_set db self in
  all_wallets ∖ enabled_wallets.

End Store.

(** ** [chains/views.py]: [ChainsListView] *)

Module ChainsListView.

(** *** [filters.OrderingFilter] *)

(** [ordering_fields] and [ordering] of the view. *)
Definition ordering_fields : list string := ["relevance"; "name"].
Definition ordering : list string := ["relevance"; "name"].

(** [term_valid] of [OrderingFilter.remove_invalid_fields]: one leading
    "-" is dropped, the rest must be one of the valid fields. *)
Definition term_valid (valid_fields : list string) (term : string) : bool :=
  let term := if Str.startswith "-" term then Str.tail term else term in
  Str.mem term valid_fields.

Definition remove_invalid_fields (fields : list string) : list string :=
  List.filter (term_valid ordering_fields) fields.

(** [OrderingFilter.get_ordering]: the terms of the [ordering] query
    parameter that are valid, or the view's default when the parameter is
    absent, empty, or has no valid term. *)
Definition get_ordering (request : Request.t) : list string :=
  match Request.get "ordering" (Request.query_params request) with
  | Some params =>
      if Str.truthy params then
        let fields := List.map Str.strip (Str.split "," params) in
        match remove_invalid_fields fields with
        | [] => ordering
        | ordering => ordering
        end
      else ordering
  | None => ordering
  end.

(** *** [QuerySet.order_by] *)

Inductive FieldError : Type := CannotResolveKeyword (name : string).

(** The columns of [Chain] a query can be ordered by, each with the
    comparison of its values. *)
Definition column (name : string) : option (Chain.t -> Chain.t -> comparison) :=
  if String.eqb name "id" then
    Some (fun a b => N.compare (Chain.id a) (Chain.id b))
  else if String.eqb name "relevance" then
    Some (fun a b => Z.compare (Chain.relevance a) (Chain.relevance b))
  else if String.eqb name "name" then
    Some (fun a b => String.compare (Chain.name a) (Chain.name b))
  else if String.eqb name "short_name" then
    Some (fun a b => String.compare (Chain.short_name a) (Chain.short_name b))
  else if String.eqb name "description" then
    Some (fun a b => String.compare (Chain.description a) (Chain.description b))
  else None.

(** One term of [order_by]: a column, descending when prefixed by "-". *)
Definition order_term (term : string)
  : result FieldError (Chain.t -> Chain.t -> comparison) :=
  let name := if Str.startswith "-" term then Str.tail term else term in
  match column name with
  | Some cmp =>
      Ok (if Str.startswith "-" term then fun a b => CompOpp (cmp a b) else cmp)
  | None => Err (CannotResolveKeyword name)
  end.

Fixpoint order_terms (terms : list string)
  : result FieldError (list (Chain.t -> Chain.t -> comparison)) :=
  match terms with
  | [] => Ok []
  | term :: terms' =>
      match order_term term with
      | Err e => Err e
      | Ok cmp =>
          match order_terms terms' with
          | Err e => Err e
          | Ok cmps => Ok (cmp :: cmps)
          end
      end
  end.

(** Rows are compared by the first term that tells them apart. *)
Fixpoint lexicographic {A} (cmps : list (A -> A -> comparison)) (a b : A)
  : comparison :=
  match cmps with
  | [] => Eq
  | cmp :: cmps' =>
      match cmp a b with
      | Eq => lexicographic cmps' a b
      | c => c
      end
  end.

Fixpoint insert_sorted {A} (cmp : A -> A -> comparison) (x : A) (l : list A)
  : list A :=
  match l with
  | [] => [x]
  | y :: l' =>
      match cmp x y with
      | Gt => y :: insert_sorted cmp x l'
      | _ => x :: l
      end
  end.

(** The store's ORDER BY, as a stable sort of the rows. *)
Fixpoint sort_by {A} (cmp : A -> A -> comparison) (l : list A) : list A :=
  match l with
  | [] => []
  | x :: l' => insert_sorted cmp x (sort_by cmp l')
  end.

Definition order_by (terms : list string) (queryset : list Chain.t)
  : result FieldError (list Chain.t) :=
  match order_terms terms with
  | Err e => Err e
  | Ok cmps => Ok (sort_by (lexicographic cmps) queryset)
  end.

(** [OrderingFilter.filter_queryset] *)
Definition filter_queryset (request : Request.t) (queryset : list Chain.t)
  : result FieldError (list Chain.t) :=
  match get_ordering request with
  | [] => Ok queryset
  | ordering => order_by ordering queryset
  end.

(** *** [pagination.LimitOffsetPagination] *)

Definition max_limit : Z := 100.
Definition default_limit : Z := 10.

Section Pagination.

(** Python's [int] on a [str]: [None] stands for [ValueError]. *)
Variable int : string -> option Z.

(** [_positive_int]: [None] stands for [ValueError]; [cutoff] is applied
    when it is truthy. *)
Definition _positive_int (integer_string : string) (strict : bool)
    (cutoff : option Z) : option Z :=
  match int integer_string with
  | None => None
  | Some ret =>
      if (ret <? 0) || ((ret =? 0) && strict) then None
      else match cutoff with
           | Some c => if c =? 0 then Some ret else Some (Z.min ret c)
           | None => Some ret
           end
  end.

(** [get_limit]: a missing key or a [ValueError] falls back to
    [default_limit]. *)
Definition get_limit (request : Request.t) : Z :=
  match Request.get "limit" (Request.query_params request) with
  | None => default_limit
  | Some s =>
      match _positive_int s true (Some max_limit) with
      | Some limit => limit
      | None => default_limit
      end
  end.

(** [get_offset] *)
Definition get_offset (request : Request.t) : Z :=
  match Request.get "offset" (Request.query_params request) with
  | None => 0
  | Some s =>
      match _positive_int s false None with
      | Some offset => offset
      | None => 0
      end
  end.

(** [queryset[lo:hi]] for [0 <= lo <= hi]. *)
Definition slice {A} (lo hi : Z) (l : list A) : list A :=
  take (Z.to_nat (hi - lo)) (drop (Z.to_nat lo) l).

(** [paginate_queryset] *)
Definition paginate_queryset {A} (queryset : list A) (request : Request.t)
  : list A :=
  let limit := get_limit request in
  let count := Z.of_nat (length queryset) in
  let offset := get_offset request in
  if (count =? 0) || (count <? offset) then []
  else slice offset (offset + limit) queryset.

(** The paginated response: the total count and the page. *)
Record Page : Type := mkPage {
  count : Z;
  results : list Chain.t
}.

(** [ListAPIView.get]: the queryset of the view, ordered by the filter
    backend, then paginated. *)
Definition get (db : Store.t) (request : Request.t) : result FieldError Page :=
  match filter_queryset request (Store.chain_table db) with
  | Err e => Err e
  | Ok queryset =>
      Ok {| count := Z.of_nat (length queryset);
            results := paginate_queryset queryset request |}
  end.

End Pagination.

(** An [int] for unsigned decimal numerals, to run the view on concrete
    requests. *)
Fixpoint int_digits (acc : Z) (s : string) : option Z :=
  match s with
  | "" => Some acc
  | String c s' =>
      if Str.isdecimal_char c
      then int_digits (10 * acc + (Z.of_N (Str.ord c) - 48)) s'
      else None
  end.

Definition int_decimal (s : string) : option Z :=
  match s with
  | "" => None
  | _ => int_digits 0 s
  end.

(** *** The vocabulary of the view's contract *)

(** The field a term of the [ordering] parameter names: the term
    without the white space around it and without one leading "-". *)
Definition named_field (term : string) : string :=
  let term := Str.strip term in
  if Str.startswith "-" term then Str.tail term else term.

(** The terms [order_by] can ever receive from this view. *)
Definition allowed_terms : list string :=
  ["relevance"; "name"; "-relevance"; "-name"].

(** Relevance ascending, then name ascending. *)
Definition default_order (a b : Chain.t) : Prop :=
  Chain.relevance a < Chain.relevance b \/
  (Chain.relevance a = Chain.relevance b /\
   String.leb (Chain.name a) (Chain.name b) = true).

(** The comparison [order_by("relevance", "name")] sorts with. *)
Definition default_cmp : Chain.t -> Chain.t -> comparison :=
  lexicographic
    [fun a b => Z.compare (Chain.relevance a) (Chain.relevance b);
     fun a b => String.compare (Chain.name a) (Chain.name b)].

End ChainsListView.

(** ** [safe_apps/views.py]: [SafeAppsListView] *)

Module SafeAppsListView.

Import Store.

(** The decimal text of a chain id. *)
Definition chain_id_text (i : N) : string :=
  NilZero.string_of_uint (N.to_uint i).

(** Modelled from the spec: the lookup [chain_ids__contains] on the
    absent [SafeApp] model: the record's chain-id collection contains
    every given value, each compared as text. *)
Definition chain_ids__contains (ids : list N) (values : list string) : bool :=
  forallb (fun v => existsb (fun i => String.eqb (chain_id_text i) v) ids) values.

(** [get_queryset] *)
Definition get_queryset (db : Store.t) (request : Request.t) : list SafeApp :=
  let queryset := List.filter visible (safe_app_table db) in
  let network_id := Request.get "chainId" (Request.query_params request) in
  match network_id with
  | Some network_id =>
      if Str.isdigit network_id
      then List.filter (fun a => chain_ids__contains (chain_ids a) [network_id])
                       queryset
      else queryset
  | None => queryset
  end.

(** The undecorated [get]: with [pagination_class = None] the payload is
    the whole queryset. *)
Definition list_response (db : Store.t) (request : Request.t) : list SafeApp :=
  get_queryset db request.

(** *** [cache_page(60 * 10, cache="safe-apps")] *)

Definition cache_timeout : Z := 60 * 10.
Definition cache_alias : string := "safe-apps".

(** What the decorator reads of a GET request: the absolute URI as it
    was sent (scheme, host, path and query string), the values of the
    request headers that the response varies on (those its Vary header
    names), and, without using them, the other headers. *)
Record HttpRequest : Type := mkHttpRequest {
  absolute_uri : string;
  vary_values : list string;
  other_headers : list (string * string)
}.

(** A cached response and the time, in seconds, at which it expires. *)
Record entry : Type := mkEntry {
  payload : list SafeApp;
  expires : Z
}.

(** A cache region maps a key to an entry; the regions are named. *)
Abbreviation Cache := (gmap (string * list string) entry).
Abbreviation Caches := (gmap string (gmap (string * list string) entry)).

(** The key of a request: its absolute URI as sent and the values of
    the headers the response varies on. (The decorator hashes them,
    together with the method and a prefix that are the same for every
    request here.) *)
Definition cache_key (request : HttpRequest) : string * list string :=
  (absolute_uri request, vary_values request).

Definition region (caches : Caches) : Cache :=
  default ∅ (caches !! cache_alias).

(** The entry for the request that has not expired at [now], if any. *)
Definition cached (now : Z) (caches : Caches) (request : HttpRequest)
  : option entry :=
  match region caches !! cache_key request with
  | Some e => if now <? expires e then Some e else None
  | None => None
  end.

(** *** The service over time *)

Record World : Type := mkWorld {
  db : Store.t;
  caches : Caches
}.

Inductive event : Type :=
| Request_at (now : Z) (request : HttpRequest)  (* a GET on the endpoint *)
| Write_at (now : Z) (db' : Store.t).           (* an administrator changes the data *)

Definition time (ev : event) : Z :=
  match ev with
  | Request_at now _ => now
  | Write_at now _ => now
  end.

Section Decorated.

(** The framework's parsing of the query string of a URI into
    [request.query_params], taken as a parameter. *)
Variable query_params_of : string -> list (string * string).

(** The request as the view sees it. *)
Definition view_request (request : HttpRequest) : Request.t :=
  Request.mk (query_params_of (absolute_uri request)).

(** The decorated [get] at time [now]: a fresh entry answers the
    request; otherwise the view runs and its response is stored for
    [cache_timeout] seconds. *)
Definition get (now : Z) (db : Store.t) (caches : Caches) (request : HttpRequest)
  : list SafeApp * Caches :=
  match cached now caches request with
  | Some e => (payload e, caches)
  | None =>
      let response := list_response db (view_request request) in
      let e := {| payload := response; expires := now + cache_timeout |} in
      (response, <[cache_alias := <[cache_key request := e]> (region caches)]> caches)
  end.

(** One event: the new world and, for a request, its payload. *)
Definition step (w : World) (ev : event) : World * option (list SafeApp) :=
  match ev with
  | Request_at now request =>
      let '(response, caches') := get now (db w) (caches w) request in
      ({| db := db w; caches := caches' |}, Some response)
  | Write_at _ db' => ({| db := db'; caches := caches w |}, None)
  end.

(** A run: the final world and the payload of each event, in order. *)
Fixpoint run (w : World) (evs : list event)
  : World * list (option (list SafeApp)) :=
  match evs with
  | [] => (w, [])
  | ev :: evs' =>
      let '(w1, out) := step w ev in
      let '(w2, outs) := run w1 evs' in
      (w2, out :: outs)
  end.

End Decorated.

End SafeAppsListView.

(** ** Regular expressions of [re] *)

Module Re.

Inductive t : Type :=
| Never                          (* no string; arises only in derivatives *)
| Empty                          (* the empty string *)
| Class (p : ascii -> bool)      (* one character of a class *)
| Seq (r1 r2 : t)
| Alt (r1 r2 : t)
| Star (r : t).

(** [r?] and [r+] *)
Definition Opt (r : t) : t := Alt r Empty.
Definition Plus (r : t) : t := Seq r (Star r).

(** A literal character. *)
Definition Chr (c : ascii) : t := Class (Ascii.eqb c).

(** [r{n}] *)
Fixpoint Repeat (n : nat) (r : t) : t :=
  match n with
  | O => Empty
  | S n' => Seq r (Repeat n' r)
  end.

Fixpoint nullable (r : t) : bool :=
  match r with
  | Never => false
  | Empty => true
  | Class _ => false
  | Seq r1 r2 => nullable r1 && nullable r2
  | Alt r1 r2 => nullable r1 || nullable r2
  | Star _ => true
  end.

(** What is left of [r] to match after the character [c]. *)
Fixpoint deriv (c : ascii) (r : t) : t :=
  match r with
  | Never => Never
  | Empty => Never
  | Class p => if p c then Empty else Never
  | Seq r1 r2 =>
      if nullable r1
      then Alt (Seq (deriv c r1) r2) (deriv c r2)
      else Seq (deriv c r1) r2
  | Alt r1 r2 => Alt (deriv c r1) (deriv c r2)
  | Star r1 => Seq (deriv c r1) (Star r1)
  end.

(** [r] matches the whole of [s]. *)
Fixpoint fullmatch (r : t) (s : string) : bool :=
  match s with
  | "" => nullable r
  | String c s' => fullmatch (deriv c r) s'
  end.

(** [s] without its last character, when that is a line feed. *)
Fixpoint before_final_newline (s : string) : option string :=
  match s with
  | "" => None
  | String c "" => if Ascii.eqb c "010" then Some "" else None
  | String c s' =>
      match before_final_newline s' with
      | Some r => Some (String c r)
      | None => None
      end
  end.

(** [re.compile("^" r "$").search(s)] as a truth value. Without
    [re.MULTILINE], "^" matches at the start of the string only and "$"
    at its end or just before a line feed that ends it. *)
Definition search_anchored (r : t) (s : string) : bool :=
  fullmatch r s ||
  match before_final_newline s with
  | Some s' => fullmatch r s'
  | None => false
  end.

(** The language of an expression: the strings it derives. *)
Inductive matches : t -> string -> Prop :=
| m_empty : matches Empty ""
| m_class p c : p c = true -> matches (Class p) (String c "")
| m_seq r1 r2 s1 s2 : matches r1 s1 -> matches r2 s2 -> matches (Seq r1 r2) (s1 ++ s2)
| m_alt_l r1 r2 s : matches r1 s -> matches (Alt r1 r2) s
| m_alt_r r1 r2 s : matches r2 s -> matches (Alt r1 r2) s
| m_star_nil r : matches (Star r) ""
| m_star_cons r s1 s2 : matches r s1 -> matches (Star r) s2 -> matches (Star r) (s1 ++ s2).

End Re.

(** ** [chains/models.py]: the validators *)

Module Validators.

Import Re.

Definition letter (c : ascii) : bool :=
  Str.in_range 97 122 c || Str.in_range 65 90 c.

Definition hyphen (c : ascii) : bool := Ascii.eqb c "-".

(** The character classes of the two patterns. On a [str] pattern [\d]
    is any Unicode decimal digit; below U+0100, the range of the
    characters of this development, these are "0".."9". What the
    patterns do on characters from U+0100 on (where [\d] matches the
    digits of other scripts) is not covered here. *)
Definition cls_d : Re.t := Class Str.isdecimal_char.                   (* \d *)
Definition cls_1_9 : Re.t := Class (Str.in_range 49 57).               (* [1-9] *)
Definition cls_letter_hyphen : Re.t :=
  Class (fun c => letter c || hyphen c).                               (* [a-zA-Z-] *)
Definition cls_alnum_hyphen : Re.t :=
  Class (fun c => Str.in_range 48 57 c || letter c || hyphen c).       (* [0-9a-zA-Z-] *)
Definition cls_hex : Re.t :=
  Class (fun c => Str.in_range 48 57 c || Str.in_range 97 102 c
                  || Str.in_range 65 70 c).                            (* [0-9a-fA-F] *)

(** [HEX_ARGB_REGEX] between its anchors: [#[0-9a-fA-F]{6}] *)
Definition HEX_ARGB_REGEX : Re.t := Seq (Chr "#") (Repeat 6 cls_hex).

(** A numeric identifier of the pattern: "0", or a digit from 1 to 9
    followed by any run of [\d]. *)
Definition re_numeric : Re.t := Alt (Chr "0") (Seq cls_1_9 (Star cls_d)).

(** The third alternative of a pre-release identifier: a run of [\d],
    one of [a-zA-Z-], and a run of [0-9a-zA-Z-]. *)
Definition re_alnum : Re.t :=
  Seq (Star cls_d) (Seq cls_letter_hyphen (Star cls_alnum_hyphen)).

(** A pre-release identifier of the pattern: "0", or a digit from 1 to
    9 followed by a run of [\d], or [re_alnum]. *)
Definition re_prerelease_id : Re.t :=
  Alt (Chr "0") (Alt (Seq cls_1_9 (Star cls_d)) re_alnum).

(** A dot-separated list of [item]s: one item, then any number of "."
    and an item. *)
Definition re_dotted (item : Re.t) : Re.t :=
  Seq item (Star (Seq (Chr ".") item)).

(** The optional pre-release group: "-", an identifier, and any number
    of "." followed by an identifier. *)
Definition re_prerelease : Re.t :=
  Opt (Seq (Chr "-") (re_dotted re_prerelease_id)).

(** The optional build group: "+", a non-empty run of [0-9a-zA-Z-],
    and any number of "." followed by such a run. *)
Definition re_build : Re.t :=
  Opt (Seq (Chr "+") (re_dotted (Plus cls_alnum_hyphen))).

(** [SEM_VER_REGEX] between its anchors. *)
Definition SEM_VER_REGEX : Re.t :=
  Seq re_numeric
      (Seq (Chr ".")
           (Seq re_numeric
                (Seq (Chr ".")
                     (Seq re_numeric (Seq re_prerelease re_build))))).

(** [RegexValidator(regex, message, code).__call__]: the value is valid
    when [regex.search] finds a match. *)
Definition RegexValidator (regex : Re.t) (message : string) (value : string)
  : result string unit :=
  if search_anchored regex value then Ok tt else Err message.

Definition color_validator : string -> result string unit :=
  RegexValidator HEX_ARGB_REGEX "Invalid hex color".

Definition sem_ver_validator : string -> result string unit :=
  RegexValidator SEM_VER_REGEX "Invalid version (semver)".

End Validators.

(** ** The SemVer 2.0 grammar, as semver.org states it

    This is the grammar the validator is compared with; it is written
    from the grammar's productions, not from the pattern. *)

Module SemVer.

Definition digit (c : ascii) : bool := Str.in_range 48 57 c.
Definition positive_digit (c : ascii) : bool := Str.in_range 49 57 c.
Definition letter (c : ascii) : bool :=
  Str.in_range 65 90 c || Str.in_range 97 122 c.
Definition non_digit (c : ascii) : bool := letter c || Ascii.eqb c "-".
Definition identifier_character (c : ascii) : bool := digit c || non_digit c.

(** <digits> ::= <digit> | <digit> <digits> *)
Inductive digits : string -> Prop :=
| digits_one c : digit c = true -> digits (String c "")
| digits_more c s : digit c = true -> digits s -> digits (String c s).

(** <identifier characters> ::= <identifier character>
                              | <identifier character> <identifier characters> *)
Inductive identifier_characters : string -> Prop :=
| idchars_one c : identifier_character c = true -> identifier_characters (String c "")
| idchars_more c s :
    identifier_character c = true -> identifier_characters s ->
    identifier_characters (String c s).

(** <numeric identifier> ::= "0" | <positive digit> | <positive digit> <digits> *)
Inductive numeric_identifier : string -> Prop :=
| numeric_zero : numeric_identifier "0"
| numeric_positive c : positive_digit c = true -> numeric_identifier (String c "")
| numeric_positive_digits c s :
    positive_digit c = true -> digits s -> numeric_identifier (String c s).

(** <alphanumeric identifier> ::= <non-digit>
                                | <non-digit> <identifier characters>
                                | <identifier characters> <non-digit>
                                | <identifier characters> <non-digit> <identifier characters> *)
Inductive alphanumeric_identifier : string -> Prop :=
| alnum_nd c : non_digit c = true -> alphanumeric_identifier (String c "")
| alnum_nd_ic c s :
    non_digit c = true -> identifier_characters s ->
    alphanumeric_identifier (String c s)
| alnum_ic_nd s c :
    identifier_characters s -> non_digit c = true ->
    alphanumeric_identifier (s ++ String c "")
| alnum_ic_nd_ic s c s' :
    identifier_characters s -> non_digit c = true -> identifier_characters s' ->
    alphanumeric_identifier (s ++ String c s').

(** <pre-release identifier> ::= <alphanumeric identifier> | <numeric identifier> *)
Inductive pre_release_identifier : string -> Prop :=
| pre_alnum s : alphanumeric_identifier s -> pre_release_identifier s
| pre_numeric s : numeric_identifier s -> pre_release_identifier s.

(** <build identifier> ::= <alphanumeric identifier> | <digits> *)
Inductive build_identifier : string -> Prop :=
| build_alnum s : alphanumeric_identifier s -> build_identifier s
| build_digits s : digits s -> build_identifier s.

(** <pre-release> ::= <dot-separated pre-release identifiers> *)
Inductive pre_release : string -> Prop :=
| pre_one s : pre_release_identifier s -> pre_release s
| pre_more s rest :
    pre_release_identifier s -> pre_release rest ->
    pre_release (s ++ String "." rest).

(** <build> ::= <dot-separated build identifiers> *)
Inductive build : string -> Prop :=
| build_one s : build_identifier s -> build s
| build_more s rest :
    build_identifier s -> build rest -> build (s ++ String "." rest).

(** <version core> ::= <major> "." <minor> "." <patch> *)
Inductive version_core : string -> Prop :=
| core major minor patch :
    numeric_identifier major -> numeric_identifier minor ->
    numeric_identifier patch ->
    version_core (major ++ String "." (minor ++ String "." patch)).

(** <valid semver> ::= <version core>
                     | <version core> "-" <pre-release>
                     | <version core> "+" <build>
                     | <version core> "-" <pre-release> "+" <build> *)
Inductive valid_semver : string -> Prop :=
| semver_core c : version_core c -> valid_semver c
| semver_pre c p :
    version_core c -> pre_release p -> valid_semver (c ++ String "-" p)
| semver_build c b :
    version_core c -> build b -> valid_semver (c ++ String "+" b)
| semver_pre_build c p b :
    version_core c -> pre_release p -> build b ->
    valid_semver (c ++ String "-" (p ++ String "+" b)).

(** The characters a valid version is written with. *)
Definition alphabet (c : ascii) : bool :=
  identifier_character c || Ascii.eqb c "." || Ascii.eqb c "+".

(** An alphanumeric identifier cut at its first non-digit: digits, a
    non-digit, identifier characters. *)
Definition alnum_shape (s : string) : Prop :=
  exists d c rest,
    s = d ++ String c rest /\ Str.all digit d = true /\
    non_digit c = true /\ Str.all identifier_character rest = true.

End SemVer.

(** ** Concrete records and requests *)

Module Examples.

(** An oracle without its parameter, and no fixed price. *)
Definition oracle_without_parameter : GasPrice.t :=
  GasPrice.mk 1 (Some "https://gas.example/api") None 1000000000 None 100.

(** An oracle with its parameter. *)
Definition oracle_price : GasPrice.t :=
  GasPrice.mk 1 (Some "https://gas.example/api") (Some "fast") 1000000000 None 100.

(** A fixed price. *)
Definition fixed_price : GasPrice.t :=
  GasPrice.mk 1 None None 1000000000 (Some 1000000000%N) 100.

(** An oracle and a fixed price at once, the parameter missing. *)
Definition both_set_without_parameter : GasPrice.t :=
  GasPrice.mk 1 (Some "https://gas.example/api") None 1000000000
              (Some 1000000000%N) 100.

(** Neither an oracle nor a fixed price. *)
Definition neither_set : GasPrice.t :=
  GasPrice.mk 1 None None 1000000000 None 100.

(** A chain with the given id, relevance and name. *)
Definition chain (id : N) (relevance : Z) (name : string) : Chain.t :=
  Chain.mk id relevance name name "" false Chain.NO_AUTHENTICATION
           "https://rpc.example" "Ether" "ETH" 18 "#ffffff" "#000000" None
           "1.3.0".

Definition chain_B : Chain.t := chain 1 50 "B".
Definition chain_A : Chain.t := chain 2 50 "A".
Definition chain_C : Chain.t := chain 3 10 "C".

(** Chains with relevance 50, 50, 10 and names "B", "A", "C". *)
Definition three_chains : list Chain.t := [chain_B; chain_A; chain_C].

Definition chains_db : Store.t :=
  Store.mk three_chains ∅ ∅ [].

(** [GET /chains] *)
Definition plain_request : Request.t := Request.mk [].

(** [GET /chains?limit=500] *)
Definition limit_500 : Request.t := Request.mk [("limit", "500")].

(** [GET /chains?ordering=id,-short_name] *)
Definition ordering_by_other_fields : Request.t :=
  Request.mk [("ordering", "id, -short_name")].

(** Visible apps with chain ids [1, 4], [4] and [10], and a hidden one. *)
Definition app_1_4 : Store.SafeApp := Store.mkSafeApp 1 true [1; 4]%N None.
Definition app_4 : Store.SafeApp := Store.mkSafeApp 2 true [4]%N (Some "provider").
Definition app_10 : Store.SafeApp := Store.mkSafeApp 3 true [10]%N None.
Definition app_hidden : Store.SafeApp := Store.mkSafeApp 4 false [4]%N None.

Definition apps_db : Store.t :=
  Store.mk [] ∅ ∅ [app_1_4; app_4; app_hidden; app_10].

(** The same store after the app for chain 10 is also enabled on chain 4
    and the first app is hidden. *)
Definition apps_db_later : Store.t :=
  Store.mk [] ∅ ∅
    [Store.mkSafeApp 1 false [1; 4]%N None; app_4; app_hidden;
     Store.mkSafeApp 3 true [10; 4]%N None].

(** [GET /safe-apps], [?chainId=4] and [?chainId=abc] *)
Definition all_apps_request : Request.t := Request.mk [].
Definition chain_4_request : Request.t := Request.mk [("chainId", "4")].
Definition chain_abc_request : Request.t := Request.mk [("chainId", "abc")].

(** The one-character text SUPERSCRIPT TWO, U+00B2, and the request
    [GET /safe-apps?chainId=%C2%B2] that carries it. *)
Definition superscript_two : string := String "178" "".
Definition superscript_request : Request.t :=
  Request.mk [("chainId", superscript_two)].

(** The URIs of three requests as they are sent: for chain 4, for chain
    4 with the digit percent-encoded, and for chain 10. *)
Definition uri_chain_4 : string :=
  "https://config.example/api/v1/safe-apps/?chainId=4".
Definition uri_chain_4_encoded : string :=
  "https://config.example/api/v1/safe-apps/?chainId=%34".
Definition uri_chain_10 : string :=
  "https://config.example/api/v1/safe-apps/?chainId=10".

(** The query parameters the framework parses from these URIs: "%34"
    decodes to "4". *)
Definition query_params_of (uri : string) : list (string * string) :=
  if String.eqb uri uri_chain_4 then [("chainId", "4")]
  else if String.eqb uri uri_chain_4_encoded then [("chainId", "4")]
  else if String.eqb uri uri_chain_10 then [("chainId", "10")]
  else [].

(** The three requests, and the first one sent by another client. *)
Definition get_chain_4 : SafeAppsListView.HttpRequest :=
  SafeAppsListView.mkHttpRequest uri_chain_4 ["application/json"] [].
Definition get_chain_4_encoded : SafeAppsListView.HttpRequest :=
  SafeAppsListView.mkHttpRequest uri_chain_4_encoded ["application/json"] [].
Definition get_chain_10 : SafeAppsListView.HttpRequest :=
  SafeAppsListView.mkHttpRequest uri_chain_10 ["application/json"] [].
Definition get_chain_4_other_client : SafeAppsListView.HttpRequest :=
  SafeAppsListView.mkHttpRequest uri_chain_4 ["application/json"]
    [("User-Agent", "curl/8.0")].

(** A first request, a second one 590 seconds later, a change of the
    data, and a third request 20 seconds after the second. *)
Definition stale_then_fresh : list SafeAppsListView.event :=
  [SafeAppsListView.Request_at 0 get_chain_4;
   SafeAppsListView.Request_at 590 get_chain_4;
   SafeAppsListView.Write_at 595 apps_db_later;
   SafeAppsListView.Request_at 610 get_chain_4].

(** A request, a change of the data, and one second later a request
    with the same query parameters written another way. *)
Definition same_parameters_other_uri : list SafeAppsListView.event :=
  [SafeAppsListView.Request_at 0 get_chain_4;
   SafeAppsListView.Write_at 1 apps_db_later;
   SafeAppsListView.Request_at 2 get_chain_4_encoded].

(** The world before any request: nothing cached. *)
Definition cold_world : SafeAppsListView.World :=
  SafeAppsListView.mkWorld apps_db ∅.

(** "1.0.0" followed by a line feed. *)
Definition version_with_newline : string := "1.0.0" ++ String "010" "".

End Examples.

(** ** [os.path.splitext] on POSIX paths *)

Module PosixPath.

(** [s.rfind(c)] for a one-character [c]: the index of its last
    occurrence, or -1. *)
Fixpoint rfind (c : ascii) (s : string) : Z :=
  match s with
  | "" => -1
  | String a s' =>
      let r := rfind c s' in
      if 0 <=? r then r + 1 else if Ascii.eqb a c then 0 else -1
  end.

(** [s[:n]] and [s[n:]] for [0 <= n]. *)
Fixpoint take (n : nat) (s : string) : string :=
  match n, s with
  | S n', String a s' => String a (take n' s')
  | _, _ => ""
  end.

Fixpoint drop (n : nat) (s : string) : string :=
  match n, s with
  | S n', String _ s' => drop n' s'
  | _, _ => s
  end.

(** [s[lo:hi]] for [0 <= lo]. *)
Definition slice (lo hi : Z) (s : string) : string :=
  take (Z.to_nat (hi - lo)) (drop (Z.to_nat lo) s).

(** [genericpath._splitext(p, "/", None, ".")]: the extension starts at
    the last dot, when that dot comes after the last slash and after a
    character of the file name that is not a dot. *)
Definition splitext (p : string) : string * string :=
  let sepIndex := rfind "/" p in
  let dotIndex := rfind "." p in
  if sepIndex <? dotIndex then
    let filenameIndex := sepIndex + 1 in
    if Str.all (Ascii.eqb ".") (slice filenameIndex dotIndex p)
    then (p, "")
    else (take (Z.to_nat dotIndex) p, drop (Z.to_nat dotIndex) p)
  else (p, "").

(** The character [c] does not occur in [s]. *)
Definition lacks (c : ascii) (s : string) : bool :=
  Str.all (fun a => negb (Ascii.eqb a c)) s.

End PosixPath.

(** ** [chains/models.py]: paths and display names *)

Module ChainModel.

(** [str(n)] for a non-negative integer. *)
Definition str_of_N (n : N) : string := NilZero.string_of_uint (N.to_uint n).

(** [native_currency_path] *)
Definition native_currency_path (instance : Chain.t) (filename : string)
  : string :=
  let file_extension := snd (PosixPath.splitext filename) in
  "chains/" ++ str_of_N (Chain.id instance) ++ "/currency_logo" ++ file_extension.

(** [Chain.__str__] *)
Definition chain__str__ (self : Chain.t) : string :=
  Chain.name self ++ " | chain_id=" ++ str_of_N (Chain.id self).

End ChainModel.

(** ** [chains/views.py]: the detail views *)

Module ChainsDetailView.

(** The outcomes of [get_object] other than an object: no row matches
    (a 404 response), or several do. *)
Inductive LookupError : Type := Http404 | MultipleObjectsReturned.

(** [get_object_or_404(queryset, **{lookup_field: value})]: the one row
    of the queryset that has the value in the lookup field. *)
Definition get_object (has_value : Chain.t -> bool) (queryset : list Chain.t)
  : result LookupError Chain.t :=
  match List.filter has_value queryset with
  | [] => Err Http404
  | [obj] => Ok obj
  | _ => Err MultipleObjectsReturned
  end.

(** [ChainsDetailView.get]: the lookup field is the primary key. *)
Definition get (db : Store.t) (pk : N) : result LookupError Chain.t :=
  get_object (fun c => N.eqb (Chain.id c) pk) (Store.chain_table db).

(** [ChainsDetailViewByShortName.get]: [lookup_field = "short_name"],
    compared exactly. *)
Definition get_by_short_name (db : Store.t) (short_name : string)
  : result LookupError Chain.t :=
  get_object (fun c => String.eqb (Chain.short_name c) short_name)
             (Store.chain_table db).

(** The constraints the model declares on the table: [id] is the
    primary key and [short_name] is unique. *)
Definition primary_key (db : Store.t) : Prop :=
  NoDup (List.map Chain.id (Store.chain_table db)).

Definition short_name_unique (db : Store.t) : Prop :=
  NoDup (List.map Chain.short_name (Store.chain_table db)).

End ChainsDetailView.

(** ** Comparisons that order rows *)

Module Comparison.

(** A comparison is lawful when swapping its arguments reverses it,
    [Lt] chains, and rows it calls equal compare alike with every
    row. *)
Record lawful {A} (cmp : A -> A -> comparison) : Prop := mk_lawful {
  swap : forall a b, cmp b a = CompOpp (cmp a b);
  lt_chain : forall a b c, cmp a b = Lt -> cmp b c = Lt -> cmp a c = Lt;
  eq_alike : forall a b c, cmp a b = Eq -> cmp a c = cmp b c
}.

(** The order a comparison sorts into: never [Gt] from left to right. *)
Definition le {A} (cmp : A -> A -> comparison) (a b : A) : Prop := cmp a b <> Gt.

End Comparison.

(** ** The cache over a run: which data a payload was computed from *)

Module CacheLog.

Import Store SafeAppsListView.

Section Log.

Variable query_params_of : string -> list (string * string).

(** The database at each event of a run, with the time of the event;
    the database of a [Write_at] is the one written. *)
Fixpoint snapshots (w : World) (evs : list event) : list (Z * Store.t) :=
  match evs with
  | [] => []
  | ev :: evs' =>
      let w1 := fst (step query_params_of w ev) in
      (time ev, db w1) :: snapshots w1 evs'
  end.

(** The requests of a run with their times and payloads. *)
Fixpoint responses (w : World) (evs : list event)
  : list (Z * HttpRequest * list SafeApp) :=
  match evs with
  | [] => []
  | ev :: evs' =>
      let w1 := fst (step query_params_of w ev) in
      match ev, snd (step query_params_of w ev) with
      | Request_at now request, Some payload =>
          (now, request, payload) :: responses w1 evs'
      | _, _ => responses w1 evs'
      end
  end.

(** Every entry of the region was computed for its key from a database
    that [seen] holds with the time the entry was stored. *)
Definition provenance (seen : list (Z * Store.t)) (caches : Caches) : Prop :=
  forall key e,
    region caches !! key = Some e ->
    exists db0, (expires e - cache_timeout, db0) ∈ seen /\
      forall request,
        cache_key request = key ->
        payload e = list_response db0 (view_request query_params_of request).

(** The payload of a request comes from a database seen less than
    [cache_timeout] seconds before it. *)
Definition fresh_source (seen : list (Z * Store.t))
    (r : Z * HttpRequest * list SafeApp) : Prop :=
  exists t' db0,
    (t', db0) ∈ seen /\ fst (fst r) - cache_timeout < t' <= fst (fst r) /\
    snd r = list_response db0 (view_request query_params_of (snd (fst r))).

End Log.

(** Event times never go back. *)
Fixpoint monotone (from : Z) (evs : list event) : Prop :=
  match evs with
  | [] => True
  | ev :: evs' => from <= time ev /\ monotone (time ev) evs'
  end.

(** The requests for a key all come before the time [limit]. *)
Definition requests_before (key : string * list string) (limit : Z)
    (evs : list event) : Prop :=
  Forall (fun ev =>
            match ev with
            | Request_at now request => cache_key request = key -> now < limit
            | Write_at _ _ => True
            end) evs.

End CacheLog.

(** ** Hex colours, as the help text of the model words them *)

Module HexColor.

Definition hex_digit (c : ascii) : bool :=
  Str.in_range 48 57 c || Str.in_range 97 102 c || Str.in_range 65 70 c.

(** "#" followed by exactly six hexadecimal digits. *)
Definition is_hex_color (s : string) : bool :=
  match s with
  | String "#" digits =>
      Nat.eqb (String.length digits) 6 && Str.all hex_digit digits
  | _ => false
  end.

End HexColor.

(** ** More concrete records and requests *)

Module MoreExamples.

(** [GET /chains?ordering=-relevance] *)
Definition by_relevance_descending : Request.t :=
  Request.mk [("ordering", "-relevance")].

(** [GET /chains?ordering=short_name, -name ,relevance] *)
Definition mixed_ordering : Request.t :=
  Request.mk [("ordering", "short_name, -name ,relevance")].

(** [GET /chains?limit=0], [?limit=2] and [?limit=2&offset=2] *)
Definition limit_0 : Request.t := Request.mk [("limit", "0")].
Definition first_page : Request.t := Request.mk [("limit", "2")].
Definition second_page : Request.t :=
  Request.mk [("limit", "2"); ("offset", "2")].

(** [GET /safe-apps?chainId=10&chainId=4] *)
Definition chain_10_then_4 : Request.t :=
  Request.mk [("chainId", "10"); ("chainId", "4")].

(** A wallet enabled on chain 1 and one enabled nowhere. *)
Definition wallet_a : Wallet.t := Wallet.mk 1 "metamask".
Definition wallet_b : Wallet.t := Wallet.mk 2 "ledger".

Definition wallets_db : Store.t :=
  Store.mk Examples.three_chains {[wallet_a; wallet_b]} {[(1%N, 1%N)]} [].

(** The same store with the second wallet enabled on chain 1 too. *)
Definition wallets_db_more : Store.t :=
  Store.mk Examples.three_chains {[wallet_a; wallet_b]}
           {[(1%N, 1%N); (2%N, 1%N)]} [].

(** A record that differs from [Examples.fixed_price] in the values of
    its fields but not in which of them are null. *)
Definition another_fixed_price : GasPrice.t :=
  GasPrice.mk 5 None None 1 (Some 0%N) (-3).

(** A table of 150 chains. *)
Definition many_chains : list Chain.t :=
  List.map (fun i => Examples.chain (N.of_nat i) 100 "chain") (seq 1 150).

Definition many_chains_db : Store.t := Store.mk many_chains ∅ ∅ [].

End MoreExamples.

(** * Properties *)

(** ** [GasPrice.clean] *)

Section GasPriceFacts.

Import GasPrice.

Lemma fields_exclusive_error :
  fields exclusive_error = {["oracle_uri"; "fixed_wei_value"]}.
Proof.
  unfold fields, exclusive_error.
  rewrite !dom_insert_L, dom_empty_L. set_solver.
Qed.

Lemma fields_parameter_error :
  fields parameter_error = {["oracle_parameter"]}.
Proof.
  unfold fields, parameter_error.
  rewrite dom_insert_L, dom_empty_L. set_solver.
Qed.

Lemma parameter_not_in_exclusive :
  "oracle_parameter" ∉ fields exclusive_error.
Proof.
  rewrite fields_exclusive_error.
  intros [H | H]%elem_of_union; apply elem_of_singleton in H; discriminate H.
Qed.

(** The shapes of a record, as the two tests of [clean] see them. *)
Lemma clean_cases (g : t) :
  match oracle_uri g, fixed_wei_value g, oracle_parameter g with
  | Some _, Some _, _ | None, None, _ => clean g = Err exclusive_error
  | Some _, None, None => clean g = Err parameter_error
  | Some _, None, Some _ | None, Some _, _ => clean g = Ok tt
  end.
Proof.
  unfold clean.
  destruct (oracle_uri g), (fixed_wei_value g), (oracle_parameter g);
    reflexivity.
Qed.

Lemma exactly_one_cases (g : t) :
  exactly_one g <->
  match oracle_uri g, fixed_wei_value g with
  | Some _, None | None, Some _ => True
  | _, _ => False
  end.
Proof.
  unfold exactly_one.
  destruct (oracle_uri g), (fixed_wei_value g); split; intros H;
    try exact I; try (exfalso; exact H);
    try (left; split; congruence); try (right; split; congruence);
    destruct H as [[H1 H2] | [H1 H2]]; congruence.
Qed.

Lemma exclusive_ne_parameter : exclusive_error <> parameter_error.
Proof.
  intros H. apply (f_equal fields) in H.
  pose proof parameter_not_in_exclusive as Hn. apply Hn.
  rewrite H, fields_parameter_error. apply elem_of_singleton. reflexivity.
Qed.

(** C1, as stated, fails: with an oracle uri, no fixed price and no
    oracle parameter exactly one of the two fields is set, and [clean]
    raises all the same. *)
Lemma clean_exactly_one_counterexample :
  exactly_one Examples.oracle_without_parameter /\
  clean Examples.oracle_without_parameter = Err parameter_error /\
  clean Examples.oracle_without_parameter <> Ok tt.
Proof.
  split; [| split].
  - left. split; [discriminate | reflexivity].
  - reflexivity.
  - discriminate.
Qed.

(** C1, amended: [clean] succeeds exactly when one of [oracle_uri] and
    [fixed_wei_value] is set and an oracle uri comes with its parameter;
    when both are set or both are null it raises the error whose fields
    are [oracle_uri] and [fixed_wei_value]. *)
Theorem clean_ok_iff (g : t) :
  (clean g = Ok tt <->
   exactly_one g /\ (oracle_uri g <> None -> oracle_parameter g <> None)) /\
  (~ exactly_one g ->
   clean g = Err exclusive_error /\
   fields exclusive_error = {["oracle_uri"; "fixed_wei_value"]}).
Proof.
  pose proof (clean_cases g) as Hc. pose proof (exactly_one_cases g) as He.
  split.
  - destruct (oracle_uri g), (fixed_wei_value g), (oracle_parameter g);
      rewrite Hc; (split; [discriminate || (intros _; split; [tauto | congruence]) |]);
      (intros [H1 H2]; try reflexivity; try tauto; exfalso; apply H2; congruence).
  - intros Hn. split; [| apply fields_exclusive_error].
    destruct (oracle_uri g), (fixed_wei_value g), (oracle_parameter g);
      try exact Hc; exfalso; tauto.
Qed.

Lemma clean_ok_iff_witness :
  clean Examples.fixed_price = Ok tt /\
  clean Examples.neither_set = Err exclusive_error.
Proof.
  split.
  - apply (proj1 (clean_ok_iff Examples.fixed_price)). split.
    + right. split; [reflexivity | discriminate].
    + intros H. exfalso. apply H. reflexivity.
  - apply (proj2 (clean_ok_iff Examples.neither_set)).
    intros [[H _] | [_ H]]; apply H; reflexivity.
Defined.

(** C2, as stated, fails: with both an oracle uri and a fixed price set
    and no oracle parameter, the error raised names [oracle_uri] and
    [fixed_wei_value] and does not name [oracle_parameter]. *)
Lemma missing_parameter_counterexample :
  oracle_uri Examples.both_set_without_parameter <> None /\
  oracle_parameter Examples.both_set_without_parameter = None /\
  exists e, clean Examples.both_set_without_parameter = Err e /\
            "oracle_parameter" ∉ fields e.
Proof.
  split; [discriminate |]. split; [reflexivity |].
  exists exclusive_error. split; [reflexivity |].
  apply parameter_not_in_exclusive.
Qed.

(** C2, amended: a record with an oracle uri and no oracle parameter is
    always rejected; the error is on [oracle_parameter] when no fixed
    price is set, and on [oracle_uri] and [fixed_wei_value] when one
    is. *)
Theorem missing_parameter_rejected (g : t) :
  oracle_uri g <> None -> oracle_parameter g = None ->
  exists e, clean g = Err e /\
    (fixed_wei_value g = None ->
     e = parameter_error /\ fields e = {["oracle_parameter"]}) /\
    (fixed_wei_value g <> None ->
     e = exclusive_error /\ fields e = {["oracle_uri"; "fixed_wei_value"]}).
Proof.
  intros Hu Hp. pose proof (clean_cases g) as Hc.
  destruct (oracle_uri g) as [u |]; [| congruence].
  rewrite Hp in Hc.
  destruct (fixed_wei_value g) as [v |].
  - exists exclusive_error. split; [exact Hc |]. split; [discriminate |].
    intros _. split; [reflexivity | apply fields_exclusive_error].
  - exists parameter_error. split; [exact Hc |]. split; [| congruence].
    intros _. split; [reflexivity | apply fields_parameter_error].
Qed.

Lemma missing_parameter_rejected_witness :
  exists e, clean Examples.oracle_without_parameter = Err e /\
    (fixed_wei_value Examples.oracle_without_parameter = None ->
     e = parameter_error /\ fields e = {["oracle_parameter"]}) /\
    (fixed_wei_value Examples.oracle_without_parameter <> None ->
     e = exclusive_error /\ fields e = {["oracle_uri"; "fixed_wei_value"]}).
Proof.
  apply (missing_parameter_rejected Examples.oracle_without_parameter).
  - discriminate.
  - reflexivity.
Defined.

(** C3, as stated, fails: the record with both fields set and no oracle
    parameter violates both invariants, and the one error raised leaves
    [oracle_parameter] out. *)
Lemma all_violations_counterexample :
  ~ exactly_one Examples.both_set_without_parameter /\
  oracle_uri Examples.both_set_without_parameter <> None /\
  oracle_parameter Examples.both_set_without_parameter = None /\
  clean Examples.both_set_without_parameter = Err exclusive_error /\
  fields exclusive_error <> {["oracle_uri"; "fixed_wei_value"; "oracle_parameter"]}.
Proof.
  split; [| split; [discriminate | split; [reflexivity | split; [reflexivity |]]]].
  - intros [[_ H] | [H _]]; discriminate H.
  - intros H. apply parameter_not_in_exclusive. rewrite H. set_solver.
Qed.

(** C3, amended: a failed validation run raises one structured error
    that carries the fields of the first check that fails: [oracle_uri]
    and [fixed_wei_value] whenever the exclusive-or is violated,
    whatever [oracle_parameter] is, and [oracle_parameter] only when the
    exclusive-or holds. *)
Theorem clean_reports_first_failed_check (g : t) (e : ValidationError) :
  clean g = Err e ->
  (~ exactly_one g /\ e = exclusive_error /\
   fields e = {["oracle_uri"; "fixed_wei_value"]}) \/
  (exactly_one g /\ oracle_uri g <> None /\ oracle_parameter g = None /\
   e = parameter_error /\ fields e = {["oracle_parameter"]}).
Proof.
  intros H. pose proof (clean_cases g) as Hc.
  pose proof (exactly_one_cases g) as He.
  destruct (oracle_uri g), (fixed_wei_value g), (oracle_parameter g);
    rewrite Hc in H; inversion H; subst e;
    try (left; split; [tauto | split; [reflexivity | apply fields_exclusive_error]]).
  right. split; [tauto |]. split; [discriminate |]. split; [reflexivity |].
  split; [reflexivity | apply fields_parameter_error].
Qed.

Lemma clean_reports_first_failed_check_witness :
  (~ exactly_one Examples.both_set_without_parameter /\
   exclusive_error = exclusive_error /\
   fields exclusive_error = {["oracle_uri"; "fixed_wei_value"]}) \/
  (exactly_one Examples.both_set_without_parameter /\
   oracle_uri Examples.both_set_without_parameter <> None /\
   oracle_parameter Examples.both_set_without_parameter = None /\
   exclusive_error = parameter_error /\
   fields exclusive_error = {["oracle_parameter"]}).
Proof.
  apply (clean_reports_first_failed_check Examples.both_set_without_parameter).
  reflexivity.
Defined.

End GasPriceFacts.

(** ** [Chain.get_disabled_wallets] *)

Section WalletFacts.

Import Store.

Lemma wallet_set_subseteq (db : Store.t) (chain : Chain.t) :
  wallet_set db chain ⊆ all_wallets db.
Proof.
  unfold wallet_set, all_wallets. intros w Hw.
  apply elem_of_filter in Hw. tauto.
Qed.

(** C9: the disabled wallets of a chain and its enabled wallets
    partition the wallets: their union is the set of all wallets and
    their intersection is empty. *)
Theorem disabled_wallets_partition (db : Store.t) (chain : Chain.t) :
  get_disabled_wallets db chain ∪ wallet_set db chain = all_wallets db /\
  get_disabled_wallets db chain ∩ wallet_set db chain = ∅.
Proof.
  pose proof (wallet_set_subseteq db chain) as Hsub.
  unfold get_disabled_wallets. split.
  - apply set_eq. intros w. rewrite elem_of_union, elem_of_difference.
    split.
    + intros [[H _] | H]; [exact H | apply Hsub, H].
    + intros H. destruct (decide (w ∈ wallet_set db chain)) as [Hin | Hout].
      * right. exact Hin.
      * left. split; assumption.
  - apply set_eq. intros w.
    rewrite elem_of_intersection, elem_of_difference, elem_of_empty. tauto.
Qed.

End WalletFacts.

(** ** Sorting *)

Section SortFacts.

Import ChainsListView.

Context {A : Type} (cmp : A -> A -> comparison) (R : A -> A -> Prop).

Lemma insert_sorted_perm (x : A) (l : list A) :
  Permutation (insert_sorted cmp x l) (x :: l).
Proof.
  induction l as [| y l IH]; simpl.
  - reflexivity.
  - destruct (cmp x y); try reflexivity.
    rewrite IH. apply perm_swap.
Qed.

Lemma sort_by_perm (l : list A) : Permutation (sort_by cmp l) l.
Proof.
  induction l as [| x l IH]; simpl.
  - reflexivity.
  - rewrite insert_sorted_perm. constructor. exact IH.
Qed.

Hypothesis R_of_le : forall a b, cmp a b <> Gt -> R a b.
Hypothesis R_of_gt : forall a b, cmp a b = Gt -> R b a.
Hypothesis R_trans : forall a b c, R a b -> R b c -> R a c.

Lemma insert_sorted_sorted (x : A) (l : list A) :
  StronglySorted R l -> StronglySorted R (insert_sorted cmp x l).
Proof.
  induction 1 as [| y l Hs IH Hy]; simpl.
  - repeat constructor.
  - destruct (cmp x y) eqn:Hc.
    + constructor; [constructor; assumption |].
      assert (R x y) as Hxy by (apply R_of_le; congruence).
      constructor; [exact Hxy |].
      eapply Forall_impl; [exact Hy |]. intros z Hz. eapply R_trans; eassumption.
    + constructor; [constructor; assumption |].
      assert (R x y) as Hxy by (apply R_of_le; congruence).
      constructor; [exact Hxy |].
      eapply Forall_impl; [exact Hy |]. intros z Hz. eapply R_trans; eassumption.
    + constructor; [exact IH |].
      rewrite (insert_sorted_perm x l).
      constructor; [apply R_of_gt; exact Hc | exact Hy].
Qed.

Lemma sort_by_sorted (l : list A) : StronglySorted R (sort_by cmp l).
Proof.
  induction l as [| x l IH]; simpl.
  - constructor.
  - apply insert_sorted_sorted, IH.
Qed.

End SortFacts.

Section SliceFacts.

Context {A : Type} (R : A -> A -> Prop).

Lemma StronglySorted_drop (n : nat) (l : list A) :
  StronglySorted R l -> StronglySorted R (drop n l).
Proof.
  intros H. revert n. induction H as [| x l Hs IH Hx]; intros [| n]; simpl;
    try constructor; try assumption. apply IH.
Qed.

Lemma StronglySorted_take (n : nat) (l : list A) :
  StronglySorted R l -> StronglySorted R (take n l).
Proof.
  intros H. revert n. induction H as [| x l Hs IH Hx]; intros [| n]; simpl;
    try constructor.
  - apply IH.
  - apply Forall_take, Hx.
Qed.

End SliceFacts.

(** ** The default order of the chains list *)

Section DefaultOrderFacts.

Import ChainsListView.

Lemma string_leb_iff (a b : string) :
  String.leb a b = true <-> a = b \/ String_as_OT.lt a b.
Proof.
  unfold String.leb.
  destruct (String.compare a b) eqn:Hc.
  - apply String.compare_eq_iff in Hc. tauto.
  - apply String_as_OT.cmp_lt in Hc. tauto.
  - split; [discriminate |]. intros [-> | Hlt].
    + assert (String.compare b b = Eq) as He by (apply String_as_OT.cmp_eq; reflexivity).
      congruence.
    + apply String_as_OT.cmp_lt in Hlt. unfold String_as_OT.cmp in Hlt. congruence.
Qed.

Lemma string_leb_trans (a b c : string) :
  String.leb a b = true -> String.leb b c = true -> String.leb a c = true.
Proof.
  rewrite !string_leb_iff. intros [-> | H1] [-> | H2]; try tauto.
  right. eapply String_as_OT.lt_trans; eassumption.
Qed.

Lemma string_leb_of_gt (a b : string) :
  String.compare a b = Gt -> String.leb b a = true.
Proof.
  intros H. unfold String.leb. rewrite String.compare_antisym, H. reflexivity.
Qed.

Lemma default_cmp_le (a b : Chain.t) : default_cmp a b <> Gt -> default_order a b.
Proof.
  unfold default_cmp, default_order, String.leb. simpl.
  destruct (Z.compare_spec (Chain.relevance a) (Chain.relevance b)) as [He | Hl | Hg].
  - intros H. right. split; [exact He |].
    destruct (String.compare (Chain.name a) (Chain.name b)); congruence.
  - intros _. left. exact Hl.
  - congruence.
Qed.

Lemma default_cmp_gt (a b : Chain.t) : default_cmp a b = Gt -> default_order b a.
Proof.
  unfold default_cmp, default_order. simpl.
  destruct (Z.compare_spec (Chain.relevance a) (Chain.relevance b)) as [He | Hl | Hg].
  - intros H. right. split; [symmetry; exact He |].
    apply string_leb_of_gt.
    destruct (String.compare (Chain.name a) (Chain.name b)); congruence.
  - discriminate.
  - intros _. left. exact Hg.
Qed.

Lemma default_order_trans (a b c : Chain.t) :
  default_order a b -> default_order b c -> default_order a c.
Proof.
  unfold default_order. intros [H1 | [H1 H1']] [H2 | [H2 H2']].
  - left. lia.
  - left. lia.
  - left. lia.
  - right. split; [lia |]. eapply string_leb_trans; eassumption.
Qed.

Lemma sort_by_default_sorted (l : list Chain.t) :
  StronglySorted default_order (sort_by default_cmp l).
Proof.
  apply sort_by_sorted.
  - apply default_cmp_le.
  - apply default_cmp_gt.
  - apply default_order_trans.
Qed.

Lemma order_by_default (queryset : list Chain.t) :
  order_by ordering queryset = Ok (sort_by default_cmp queryset).
Proof. reflexivity. Qed.

End DefaultOrderFacts.

(** ** [OrderingFilter] *)

Section OrderingFacts.

Import ChainsListView.

Lemma mem_true_iff (x : string) (l : list string) :
  Str.mem x l = true <-> x ∈ l.
Proof.
  unfold Str.mem. rewrite existsb_exists. split.
  - intros (y & Hy & He). apply String.eqb_eq in He. subst y.
    apply list_elem_of_In. exact Hy.
  - intros H. exists x. split; [apply list_elem_of_In, H | apply String.eqb_refl].
Qed.

Lemma startswith_tail (c : ascii) (s : string) :
  Str.startswith c s = true -> s = String c (Str.tail s).
Proof.
  destruct s as [| c' s]; simpl; [discriminate |].
  intros H. apply Ascii.eqb_eq in H. congruence.
Qed.

Lemma term_valid_allowed (term : string) :
  term_valid ordering_fields term = true -> term ∈ allowed_terms.
Proof.
  unfold term_valid. destruct (Str.startswith "-" term) eqn:Hs.
  - apply startswith_tail in Hs. rewrite mem_true_iff.
    unfold ordering_fields, allowed_terms. rewrite Hs at 2.
    rewrite !elem_of_cons. intros [-> | [-> | H]]; [tauto | tauto |].
    apply elem_of_nil in H. contradiction.
  - rewrite mem_true_iff. unfold ordering_fields, allowed_terms.
    rewrite !elem_of_cons. tauto.
Qed.

Lemma remove_invalid_fields_allowed (fields : list string) :
  Forall (fun term => term ∈ allowed_terms) (remove_invalid_fields fields).
Proof.
  unfold remove_invalid_fields. apply Forall_forall. intros term Hin.
  apply list_elem_of_In, filter_In in Hin. apply term_valid_allowed, Hin.
Qed.

(** Whatever the request, [order_by] receives a non-empty list of terms
    over relevance and name only. *)
Lemma get_ordering_allowed (request : Request.t) :
  get_ordering request <> [] /\
  Forall (fun term => term ∈ allowed_terms) (get_ordering request).
Proof.
  assert (ordering <> [] /\ Forall (fun term => term ∈ allowed_terms) ordering)
    as Hd.
  { split; [discriminate |]. unfold ordering, allowed_terms.
    repeat constructor; rewrite !elem_of_cons; tauto. }
  unfold get_ordering.
  destruct (Request.get "ordering" (Request.query_params request)) as [params |];
    [| exact Hd].
  destruct (Str.truthy params); [| exact Hd].
  pose proof (remove_invalid_fields_allowed (List.map Str.strip (Str.split "," params)))
    as Hr.
  destruct (remove_invalid_fields (List.map Str.strip (Str.split "," params)));
    [exact Hd |].
  split; [discriminate | exact Hr].
Qed.

Lemma order_terms_allowed (terms : list string) :
  Forall (fun term => term ∈ allowed_terms) terms ->
  exists cmps, order_terms terms = Ok cmps.
Proof.
  induction 1 as [| term terms Ht _ [cmps IH]]; simpl.
  - eexists. reflexivity.
  - rewrite IH. unfold allowed_terms in Ht. rewrite !elem_of_cons in Ht.
    destruct Ht as [-> | [-> | [-> | [-> | Ht]]]];
      try (eexists; reflexivity).
    apply elem_of_nil in Ht. contradiction.
Qed.

(** The filter backend never raises, and its result is a permutation
    of the queryset. *)
Lemma filter_queryset_ok (request : Request.t) (queryset : list Chain.t) :
  exists ordered,
    filter_queryset request queryset = Ok ordered /\ Permutation ordered queryset.
Proof.
  destruct (get_ordering_allowed request) as [Hne Hall].
  destruct (order_terms_allowed _ Hall) as [cmps Hc].
  unfold filter_queryset.
  destruct (get_ordering request) as [| term terms] eqn:Ho; [congruence |].
  unfold order_by. rewrite Hc. eexists. split; [reflexivity |].
  apply sort_by_perm.
Qed.

(** Without usable terms in the request the default ordering applies. *)
Lemma filter_queryset_default (request : Request.t) (queryset : list Chain.t) :
  get_ordering request = ordering ->
  filter_queryset request queryset = Ok (sort_by default_cmp queryset).
Proof. intros H. unfold filter_queryset. rewrite H. reflexivity. Qed.

End OrderingFacts.

(** ** [LimitOffsetPagination] *)

Section PaginationFacts.

Import ChainsListView.

Variable int : string -> option Z.

Lemma positive_int_limit (s : string) (limit : Z) :
  _positive_int int s true (Some max_limit) = Some limit ->
  exists ret, int s = Some ret /\ 0 < ret /\ limit = Z.min ret max_limit.
Proof.
  unfold _positive_int. destruct (int s) as [ret |]; [| discriminate].
  destruct (ret <? 0) eqn:Hneg; simpl; [discriminate |].
  destruct (ret =? 0) eqn:Hzero; simpl; [discriminate |].
  intros H. inversion H. exists ret. split; [reflexivity |]. lia.
Qed.

Lemma get_limit_bounds (request : Request.t) :
  0 < get_limit int request <= max_limit.
Proof.
  unfold get_limit.
  destruct (Request.get "limit" (Request.query_params request)) as [s |];
    [| unfold default_limit, max_limit; lia].
  destruct (_positive_int int s true (Some max_limit)) as [limit |] eqn:Hp;
    [| unfold default_limit, max_limit; lia].
  apply positive_int_limit in Hp. destruct Hp as (ret & _ & Hpos & ->).
  unfold max_limit. lia.
Qed.

Lemma get_limit_clamped (request : Request.t) (s : string) (n : Z) :
  Request.get "limit" (Request.query_params request) = Some s ->
  int s = Some n -> max_limit < n -> get_limit int request = max_limit.
Proof.
  intros Hs Hn Hgt. unfold get_limit, _positive_int. rewrite Hs, Hn.
  unfold max_limit in *.
  destruct (n <? 0) eqn:Hneg; [lia |].
  destruct (n =? 0) eqn:Hzero; [lia |]. simpl. lia.
Qed.

Lemma length_slice {A} (lo hi : Z) (l : list A) :
  (length (slice lo hi l) <= Z.to_nat (hi - lo))%nat.
Proof. unfold slice. rewrite length_take. lia. Qed.

Lemma length_paginate_queryset {A} (queryset : list A) (request : Request.t) :
  Z.of_nat (length (paginate_queryset int queryset request))
  <= get_limit int request.
Proof.
  pose proof (get_limit_bounds request) as Hb.
  unfold paginate_queryset.
  destruct ((Z.of_nat (length queryset) =? 0)
            || (Z.of_nat (length queryset) <? get_offset int request));
    [simpl; lia |].
  pose proof (length_slice (get_offset int request)
                (get_offset int request + get_limit int request) queryset).
  lia.
Qed.

Lemma paginate_queryset_sorted (R : Chain.t -> Chain.t -> Prop)
    (queryset : list Chain.t) (request : Request.t) :
  StronglySorted R queryset ->
  StronglySorted R (paginate_queryset int queryset request).
Proof.
  intros H. unfold paginate_queryset, slice.
  destruct ((Z.of_nat (length queryset) =? 0)
            || (Z.of_nat (length queryset) <? get_offset int request));
    [constructor |].
  apply StronglySorted_take, StronglySorted_drop, H.
Qed.

(** The view never raises: every request gets a page. *)
Lemma get_ok (db : Store.t) (request : Request.t) :
  exists queryset,
    filter_queryset request (Store.chain_table db) = Ok queryset /\
    Permutation queryset (Store.chain_table db) /\
    get int db request =
      Ok {| count := Z.of_nat (length queryset);
            results := paginate_queryset int queryset request |}.
Proof.
  destruct (filter_queryset_ok request (Store.chain_table db)) as (qs & Hq & Hp).
  exists qs. split; [exact Hq |]. split; [exact Hp |].
  unfold get. rewrite Hq. reflexivity.
Qed.

End PaginationFacts.

(** ** The chains list *)

Section ChainsListFacts.

Import ChainsListView.

(** C6: without an [ordering] parameter the chains are returned sorted
    by relevance ascending, then name ascending: the ordered queryset is
    a permutation of the chains, sorted in that order, and the page is a
    sorted slice of it. Chains with relevance 50, 50, 10 and names "B",
    "A", "C" come out as C, A, B. *)
Theorem default_ordering (int : string -> option Z)
    (db : Store.t) (request : Request.t) :
  Request.get "ordering" (Request.query_params request) = None ->
  exists queryset page,
    filter_queryset request (Store.chain_table db) = Ok queryset /\
    Permutation queryset (Store.chain_table db) /\
    StronglySorted default_order queryset /\
    get int db request = Ok page /\
    results page = paginate_queryset int queryset request /\
    StronglySorted default_order (results page) /\
    (Store.chain_table db = Examples.three_chains ->
     queryset = [Examples.chain_C; Examples.chain_A; Examples.chain_B]).
Proof.
  intros Hnone.
  assert (get_ordering request = ordering) as Ho.
  { unfold get_ordering. rewrite Hnone. reflexivity. }
  pose proof (filter_queryset_default request (Store.chain_table db) Ho) as Hf.
  exists (sort_by default_cmp (Store.chain_table db)).
  eexists. split; [exact Hf |]. split; [apply sort_by_perm |].
  split; [apply sort_by_default_sorted |].
  split; [unfold get; rewrite Hf; reflexivity |]. simpl.
  split; [reflexivity |].
  split; [apply paginate_queryset_sorted, sort_by_default_sorted |].
  intros ->. reflexivity.
Qed.

Lemma default_ordering_witness :
  exists queryset page,
    filter_queryset Examples.plain_request Examples.three_chains = Ok queryset /\
    get int_decimal Examples.chains_db Examples.plain_request = Ok page /\
    queryset = [Examples.chain_C; Examples.chain_A; Examples.chain_B] /\
    results page = [Examples.chain_C; Examples.chain_A; Examples.chain_B].
Proof.
  destruct (default_ordering int_decimal Examples.chains_db Examples.plain_request
              eq_refl)
    as (queryset & page & Hf & _ & _ & Hg & Hr & _ & Hex).
  exists queryset, page.
  split; [exact Hf |]. split; [exact Hg |].
  pose proof (Hex eq_refl) as Hq. split; [exact Hq |].
  rewrite Hr, Hq. reflexivity.
Defined.

(** C10: when every term of the [ordering] parameter names a field
    other than relevance and name, the terms are dropped and the chains
    come back in the default order, relevance then name ascending.
    No request raises an error, and the terms that reach [order_by] are
    always among relevance, name, -relevance and -name. *)
Theorem unknown_ordering_fields_ignored (int : string -> option Z)
    (db : Store.t) (request : Request.t) (params : string) :
  Request.get "ordering" (Request.query_params request) = Some params ->
  Forall (fun term => named_field term ∉ ordering_fields)
         (Str.split "," params) ->
  get_ordering request = ["relevance"; "name"] /\
  Forall (fun term => term ∈ allowed_terms) (get_ordering request) /\
  exists queryset page,
    filter_queryset request (Store.chain_table db) = Ok queryset /\
    queryset = sort_by default_cmp (Store.chain_table db) /\
    Permutation queryset (Store.chain_table db) /\
    StronglySorted default_order queryset /\
    get int db request = Ok page /\
    results page = paginate_queryset int queryset request /\
    StronglySorted default_order (results page).
Proof.
  intros Hsome Hout.
  assert (remove_invalid_fields (List.map Str.strip (Str.split "," params)) = [])
    as Hnil.
  { unfold remove_invalid_fields.
    induction Hout as [| term terms Ht _ IH]; cbn [List.map List.filter];
      [reflexivity |].
    assert (term_valid ordering_fields (Str.strip term) = false) as ->.
    { apply not_true_is_false. intros Hv. apply Ht.
      unfold term_valid in Hv. apply mem_true_iff in Hv. exact Hv. }
    exact IH. }
  assert (get_ordering request = ordering) as Ho.
  { unfold get_ordering. rewrite Hsome, Hnil. destruct (Str.truthy params); reflexivity. }
  split; [exact Ho |].
  split; [apply get_ordering_allowed |].
  pose proof (filter_queryset_default request (Store.chain_table db) Ho) as Hf.
  exists (sort_by default_cmp (Store.chain_table db)).
  eexists. split; [exact Hf |]. split; [reflexivity |].
  split; [apply sort_by_perm |].
  split; [apply sort_by_default_sorted |].
  split; [unfold get; rewrite Hf; reflexivity |]. simpl.
  split; [reflexivity |].
  apply paginate_queryset_sorted, sort_by_default_sorted.
Qed.

Lemma unknown_ordering_fields_ignored_witness :
  get_ordering Examples.ordering_by_other_fields = ["relevance"; "name"] /\
  exists page,
    get int_decimal Examples.chains_db Examples.ordering_by_other_fields = Ok page /\
    results page = [Examples.chain_C; Examples.chain_A; Examples.chain_B].
Proof.
  assert (Forall (fun term => named_field term ∉ ordering_fields)
                 (Str.split "," "id, -short_name")) as Hout.
  { repeat constructor; vm_compute; intros H;
      repeat (apply elem_of_cons in H; destruct H as [H | H]; [discriminate H |]);
      apply elem_of_nil in H; exact H. }
  destruct (unknown_ordering_fields_ignored int_decimal Examples.chains_db
              Examples.ordering_by_other_fields "id, -short_name" eq_refl Hout)
    as (Ho & _ & queryset & page & _ & Hq & _ & _ & Hg & Hr & _).
  split; [exact Ho |].
  exists page. split; [exact Hg |]. rewrite Hr, Hq. reflexivity.
Defined.

End ChainsListFacts.

(** ** The safe-apps list *)

Section SafeAppsFacts.

Import Store SafeAppsListView.

Lemma isdecimal_char_isdigit_char (c : ascii) :
  Str.isdecimal_char c = true -> Str.isdigit_char c = true.
Proof. unfold Str.isdigit_char. intros ->. reflexivity. Qed.

(** A non-empty run of "0".."9" passes [isdigit]. *)
Lemma isdecimal_isdigit (s : string) :
  Str.isdecimal s = true -> Str.isdigit s = true.
Proof.
  unfold Str.isdecimal, Str.isdigit. destruct s as [| c s]; [discriminate |].
  rewrite !forallb_forall. intros H x Hx.
  apply isdecimal_char_isdigit_char, H, Hx.
Qed.

(** Without a [chainId] all visible apps are returned. *)
Lemma get_queryset_absent (db : Store.t) (request : Request.t) :
  Request.get "chainId" (Request.query_params request) = None ->
  get_queryset db request = List.filter visible (safe_app_table db).
Proof. intros H. unfold get_queryset. rewrite H. reflexivity. Qed.

(** With a [chainId] made of decimal digits, the visible apps whose
    chain ids contain it, compared as text, are returned. *)
Lemma get_queryset_decimal (db : Store.t) (request : Request.t) (network_id : string) :
  Request.get "chainId" (Request.query_params request) = Some network_id ->
  Str.isdecimal network_id = true ->
  get_queryset db request =
  List.filter (fun a => visible a &&
                        existsb (fun i => String.eqb (chain_id_text i) network_id)
                                (chain_ids a))
              (safe_app_table db).
Proof.
  intros H Hd. unfold get_queryset. rewrite H, (isdecimal_isdigit _ Hd).
  induction (safe_app_table db) as [| a l IH]; [reflexivity |].
  cbn [List.filter]. destruct (visible a); cbn [List.filter andb]; [| exact IH].
  unfold chain_ids__contains at 1. cbn [forallb]. rewrite andb_true_r.
  destruct (existsb _ (chain_ids a)); rewrite IH; reflexivity.
Qed.

(** With a [chainId] that [isdigit] refuses, the filter is skipped. *)
Lemma get_queryset_skipped (db : Store.t) (request : Request.t) (network_id : string) :
  Request.get "chainId" (Request.query_params request) = Some network_id ->
  Str.isdigit network_id = false ->
  get_queryset db request = List.filter visible (safe_app_table db).
Proof. intros H Hd. unfold get_queryset. rewrite H, Hd. reflexivity. Qed.

(** The example of the spec: apps with chain ids [1, 4], [4], [10];
    [chainId=4] gives the two apps with 4, [chainId=abc] all three. *)
Lemma get_queryset_examples :
  get_queryset Examples.apps_db Examples.chain_4_request
  = [Examples.app_1_4; Examples.app_4] /\
  get_queryset Examples.apps_db Examples.chain_abc_request
  = [Examples.app_1_4; Examples.app_4; Examples.app_10] /\
  get_queryset Examples.apps_db Examples.all_apps_request
  = [Examples.app_1_4; Examples.app_4; Examples.app_10].
Proof. repeat split; reflexivity. Qed.

(** C4, at [chainId] = U+00B2: the text is not made of decimal digits,
    yet [isdigit] accepts it, so the chain-id filter is applied instead
    of skipped: the three visible apps are not returned, the result is
    empty. *)
Theorem superscript_chain_id_not_skipped :
  Request.get "chainId" (Request.query_params Examples.superscript_request)
  = Some Examples.superscript_two /\
  Str.isdecimal Examples.superscript_two = false /\
  Str.isdigit Examples.superscript_two = true /\
  List.filter visible (safe_app_table Examples.apps_db)
  = [Examples.app_1_4; Examples.app_4; Examples.app_10] /\
  get_queryset Examples.apps_db Examples.superscript_request = [].
Proof. repeat split; reflexivity. Qed.

End SafeAppsFacts.

(** ** The cache in front of the safe-apps list *)

Section CacheFacts.

Import Store SafeAppsListView CacheLog.

Variable query_params_of : string -> list (string * string).

Abbreviation get := (SafeAppsListView.get query_params_of).
Abbreviation step := (SafeAppsListView.step query_params_of).
Abbreviation run := (SafeAppsListView.run query_params_of).
Abbreviation view_request := (SafeAppsListView.view_request query_params_of).

Lemma region_insert (caches : Caches) (cache : Cache) :
  region (<[cache_alias := cache]> caches) = cache.
Proof. unfold region. rewrite lookup_insert_eq. reflexivity. Qed.

(** A request that misses stores its response for [cache_timeout]
    seconds. *)
Lemma get_miss (now : Z) (db : Store.t) (caches : Caches) (request : HttpRequest) :
  cached now caches request = None ->
  fst (get now db caches request) = list_response db (view_request request) /\
  region (snd (get now db caches request)) !! cache_key request
  = Some {| payload := list_response db (view_request request);
            expires := now + cache_timeout |}.
Proof.
  intros H. unfold SafeAppsListView.get. rewrite H. simpl. split; [reflexivity |].
  rewrite region_insert, lookup_insert_eq. reflexivity.
Qed.

(** A request leaves an entry alone when it has another key, or comes
    before the entry expires. *)
Lemma get_keeps_entry (now : Z) (db : Store.t) (caches : Caches)
    (request : HttpRequest) (key : string * list string) (e : entry) :
  region caches !! key = Some e ->
  (cache_key request = key -> now < expires e) ->
  region (snd (get now db caches request)) !! key = Some e.
Proof.
  intros He Hnow. unfold SafeAppsListView.get.
  destruct (cached now caches request) as [e' |] eqn:Hc; simpl; [exact He |].
  rewrite region_insert.
  destruct (decide (cache_key request = key)) as [Hk | Hk].
  - exfalso. specialize (Hnow Hk). unfold cached in Hc. rewrite Hk, He in Hc.
    apply Z.ltb_lt in Hnow. rewrite Hnow in Hc. discriminate Hc.
  - rewrite lookup_insert_ne; [exact He | exact Hk].
Qed.

(** Requests with another key never touch the entry of a key. *)
Lemma get_other_key (now : Z) (db : Store.t) (caches : Caches)
    (request : HttpRequest) (key : string * list string) :
  cache_key request <> key ->
  region (snd (get now db caches request)) !! key = region caches !! key.
Proof.
  intros Hk. unfold SafeAppsListView.get.
  destruct (cached now caches request); simpl; [reflexivity |].
  rewrite region_insert, lookup_insert_ne; [reflexivity | exact Hk].
Qed.

Lemma snd_step_request (w : World) (now : Z) (request : HttpRequest) :
  snd (step w (Request_at now request))
  = Some (fst (get now (db w) (caches w) request)).
Proof. simpl. destruct (get now (db w) (caches w) request). reflexivity. Qed.

Lemma caches_step_request (w : World) (now : Z) (request : HttpRequest) :
  caches (fst (step w (Request_at now request)))
  = snd (get now (db w) (caches w) request).
Proof. simpl. destruct (get now (db w) (caches w) request). reflexivity. Qed.

Lemma db_step_request (w : World) (now : Z) (request : HttpRequest) :
  db (fst (step w (Request_at now request))) = db w.
Proof. simpl. destruct (get now (db w) (caches w) request). reflexivity. Qed.

Lemma run_keeps_entry (evs : list event) (w : World)
    (key : string * list string) (e : entry) :
  region (caches w) !! key = Some e ->
  requests_before key (expires e) evs ->
  region (caches (fst (run w evs))) !! key = Some e.
Proof.
  unfold requests_before.
  revert w. induction evs as [| ev evs IH]; intros w He Hall; simpl.
  - exact He.
  - inversion Hall as [| ? ? Hev Hevs]; subst.
    assert (region (caches (fst (step w ev))) !! key = Some e) as Hs.
    { destruct ev as [now request | now db'].
      - rewrite caches_step_request. apply get_keeps_entry; assumption.
      - exact He. }
    destruct (step w ev) as [w1 out]. simpl in Hs.
    specialize (IH w1 Hs Hevs).
    destruct (run w1 evs) as [w2 outs]. exact IH.
Qed.

Lemma requests_before_of_times (key : string * list string) (limit : Z)
    (evs : list event) :
  Forall (fun ev => time ev < limit) evs -> requests_before key limit evs.
Proof.
  unfold requests_before. intros Hall. eapply Forall_impl; [exact Hall |].
  intros [now request | now db'] H; [intros _; exact H | exact I].
Qed.

(** A request answered from a fresh entry returns its payload. *)
Lemma get_hit (now : Z) (db : Store.t) (caches : Caches)
    (request : HttpRequest) (e : entry) :
  region caches !! cache_key request = Some e -> now < expires e ->
  fst (get now db caches request) = payload e.
Proof.
  intros He Hnow. unfold SafeAppsListView.get, cached. rewrite He.
  apply Z.ltb_lt in Hnow. rewrite Hnow. reflexivity.
Qed.

(** C7, amended: when a request finds no fresh entry and so populates
    the cache, every request with the same absolute URI as sent and
    the same values of the varied headers, made less than 10 minutes
    after it, returns the same payload, whatever requests and changes
    of the data happen in between. Requests whose URI or varied header
    values differ are cached apart: they leave the entry of this
    request as it is, and storing this entry changes nothing of what
    the cache holds for them. *)
Theorem cached_payload_within_timeout (w : World) (t0 : Z)
    (request : HttpRequest) (evs : list event) (t1 : Z) (again : HttpRequest) :
  cached t0 (caches w) request = None ->
  Forall (fun ev => time ev < t0 + cache_timeout) evs ->
  t1 < t0 + cache_timeout ->
  cache_key again = cache_key request ->
  let w1 := fst (step w (Request_at t0 request)) in
  let w2 := fst (run w1 evs) in
  snd (step w (Request_at t0 request))
  = Some (list_response (db w) (view_request request)) /\
  snd (step w2 (Request_at t1 again))
  = Some (list_response (db w) (view_request request)) /\
  forall now other,
    cache_key other <> cache_key request ->
    region (caches (fst (step w2 (Request_at now other)))) !! cache_key request
    = region (caches w2) !! cache_key request /\
    cached now (caches w1) other = cached now (caches w) other.
Proof.
  intros Hmiss Hevs Ht1 Hkey w1 w2.
  destruct (get_miss t0 (db w) (caches w) request Hmiss) as [Hfst Hentry].
  split; [rewrite snd_step_request, Hfst; reflexivity |].
  set (e := {| payload := list_response (db w) (view_request request);
               expires := t0 + cache_timeout |}) in *.
  assert (region (caches w1) !! cache_key request = Some e) as H1.
  { unfold w1. rewrite caches_step_request. exact Hentry. }
  assert (region (caches w2) !! cache_key request = Some e) as H2.
  { unfold w2. apply run_keeps_entry; [exact H1 |].
    apply requests_before_of_times, Hevs. }
  split.
  - rewrite snd_step_request. rewrite <- Hkey in H2.
    rewrite (get_hit t1 (db w2) (caches w2) again e H2 Ht1). reflexivity.
  - intros now other Hk. split.
    + rewrite caches_step_request. apply get_other_key, Hk.
    + unfold cached, w1. rewrite caches_step_request.
      rewrite get_other_key by congruence. reflexivity.
Qed.

End CacheFacts.

Section CacheExamples.

Import Store SafeAppsListView.

(** C7, as stated, fails twice over. The second and the fourth event of
    the first run are requests with the same query parameters, 20
    seconds apart, and the data changes between them: the entry stored
    at time 0 answers the first of the two and has expired for the
    other, so their payloads differ. In the second run two requests
    with the same query parameters, written in two ways, are 2 seconds
    apart: each has its own key, so the second is computed afresh and
    differs from the first. *)
Lemma cache_ten_minutes_counterexample :
  snd (run Examples.query_params_of Examples.cold_world Examples.stale_then_fresh)
  = [Some [Examples.app_1_4; Examples.app_4];
     Some [Examples.app_1_4; Examples.app_4];
     None;
     Some [Examples.app_4; Store.mkSafeApp 3 true [10; 4]%N None]] /\
  610 - 590 < cache_timeout /\
  [Examples.app_1_4; Examples.app_4]
  <> [Examples.app_4; Store.mkSafeApp 3 true [10; 4]%N None] /\
  view_request Examples.query_params_of Examples.get_chain_4_encoded
  = view_request Examples.query_params_of Examples.get_chain_4 /\
  snd (run Examples.query_params_of Examples.cold_world
           Examples.same_parameters_other_uri)
  = [Some [Examples.app_1_4; Examples.app_4];
     None;
     Some [Examples.app_4; Store.mkSafeApp 3 true [10; 4]%N None]].
Proof.
  split; [vm_compute; reflexivity |]. split; [reflexivity |].
  split; [discriminate |]. split; vm_compute; reflexivity.
Qed.

Lemma cached_payload_within_timeout_witness :
  snd (step Examples.query_params_of
            (fst (run Examples.query_params_of
                      (fst (step Examples.query_params_of Examples.cold_world
                                 (Request_at 0 Examples.get_chain_4)))
                      [Write_at 595 Examples.apps_db_later]))
            (Request_at 599 Examples.get_chain_4_other_client))
  = Some [Examples.app_1_4; Examples.app_4] /\
  cached 1 (caches (fst (step Examples.query_params_of Examples.cold_world
                              (Request_at 0 Examples.get_chain_4))))
         Examples.get_chain_10
  = None.
Proof.
  assert (Forall (fun ev => time ev < 0 + cache_timeout)
                 [Write_at 595 Examples.apps_db_later]) as Hevs.
  { repeat constructor. }
  assert (599 < 0 + cache_timeout) as Ht by reflexivity.
  assert (cache_key Examples.get_chain_10 <> cache_key Examples.get_chain_4) as Hk.
  { intros H. inversion H. }
  destruct (cached_payload_within_timeout Examples.query_params_of
              Examples.cold_world 0 Examples.get_chain_4
              [Write_at 595 Examples.apps_db_later] 599
              Examples.get_chain_4_other_client eq_refl Hevs Ht eq_refl)
    as (_ & Hsecond & Hother).
  split; [exact Hsecond |].
  rewrite (proj2 (Hother 1 Examples.get_chain_10 Hk)). reflexivity.
Defined.

End CacheExamples.

(** ** The semantic-version validator *)

Section SemVerFacts.

Import Re Validators.

Lemma all_app (p : ascii -> bool) (s1 s2 : string) :
  Str.all p (s1 ++ s2) = Str.all p s1 && Str.all p s2.
Proof.
  induction s1 as [| c s1 IH]; simpl; [reflexivity |].
  rewrite IH. apply andb_assoc.
Qed.

Lemma all_impl (p q : ascii -> bool) (s : string) :
  (forall c, p c = true -> q c = true) -> Str.all p s = true -> Str.all q s = true.
Proof.
  intros Hpq. induction s as [| c s IH]; simpl; [reflexivity |].
  intros [Hc Hs]%andb_true_iff. rewrite (Hpq c Hc), (IH Hs). reflexivity.
Qed.

Lemma digit_identifier_character (c : ascii) :
  SemVer.digit c = true -> SemVer.identifier_character c = true.
Proof. unfold SemVer.identifier_character. intros ->. reflexivity. Qed.

Lemma non_digit_identifier_character (c : ascii) :
  SemVer.non_digit c = true -> SemVer.identifier_character c = true.
Proof. unfold SemVer.identifier_character. intros ->. apply orb_true_r. Qed.

Lemma positive_digit_digit (c : ascii) :
  SemVer.positive_digit c = true -> SemVer.digit c = true.
Proof.
  unfold SemVer.positive_digit, SemVer.digit, Str.in_range.
  intros [H1 H2]%andb_true_iff. apply andb_true_iff. split; [| exact H2].
  apply N.leb_le. apply N.leb_le in H1. lia.
Qed.

Lemma digits_all (s : string) :
  SemVer.digits s -> Str.all SemVer.digit s = true.
Proof.
  induction 1 as [c Hc | c s Hc _ IH]; simpl.
  - rewrite Hc. reflexivity.
  - rewrite Hc, IH. reflexivity.
Qed.

Lemma identifier_characters_all (s : string) :
  SemVer.identifier_characters s -> Str.all SemVer.identifier_character s = true.
Proof.
  induction 1 as [c Hc | c s Hc _ IH]; simpl.
  - rewrite Hc. reflexivity.
  - rewrite Hc, IH. reflexivity.
Qed.

Lemma numeric_identifier_all (s : string) :
  SemVer.numeric_identifier s -> Str.all SemVer.identifier_character s = true.
Proof.
  destruct 1 as [| c Hc | c s Hc Hs]; simpl.
  - reflexivity.
  - rewrite (digit_identifier_character c (positive_digit_digit c Hc)). reflexivity.
  - rewrite (digit_identifier_character c (positive_digit_digit c Hc)).
    apply (all_impl SemVer.digit); [apply digit_identifier_character |].
    apply digits_all, Hs.
Qed.

Lemma alphanumeric_identifier_all (s : string) :
  SemVer.alphanumeric_identifier s ->
  Str.all SemVer.identifier_character s = true.
Proof.
  destruct 1 as [c Hc | c s Hc Hs | s c Hs Hc | s c s' Hs Hc Hs'];
    rewrite ?all_app; simpl;
    rewrite ?(non_digit_identifier_character c Hc),
            ?(identifier_characters_all _ Hs); try reflexivity.
  simpl. apply identifier_characters_all, Hs'.
Qed.

Lemma identifier_character_alphabet (c : ascii) :
  SemVer.identifier_character c = true -> SemVer.alphabet c = true.
Proof. unfold SemVer.alphabet. intros ->. reflexivity. Qed.

Lemma pre_release_identifier_alphabet (s : string) :
  SemVer.pre_release_identifier s -> Str.all SemVer.alphabet s = true.
Proof.
  intros H. apply (all_impl SemVer.identifier_character);
    [apply identifier_character_alphabet |].
  destruct H as [s H | s H];
    [apply alphanumeric_identifier_all | apply numeric_identifier_all]; exact H.
Qed.

Lemma build_identifier_alphabet (s : string) :
  SemVer.build_identifier s -> Str.all SemVer.alphabet s = true.
Proof.
  intros [s' H | s' H].
  - apply (all_impl SemVer.identifier_character);
      [apply identifier_character_alphabet |].
    apply alphanumeric_identifier_all, H.
  - apply (all_impl SemVer.digit); [| apply digits_all, H].
    intros c Hc. apply identifier_character_alphabet, digit_identifier_character, Hc.
Qed.

Lemma pre_release_alphabet (s : string) :
  SemVer.pre_release s -> Str.all SemVer.alphabet s = true.
Proof.
  induction 1 as [s H | s rest H _ IH].
  - apply pre_release_identifier_alphabet, H.
  - rewrite all_app. simpl.
    rewrite (pre_release_identifier_alphabet s H), IH. reflexivity.
Qed.

Lemma build_alphabet (s : string) :
  SemVer.build s -> Str.all SemVer.alphabet s = true.
Proof.
  induction 1 as [s H | s rest H _ IH].
  - apply build_identifier_alphabet, H.
  - rewrite all_app. simpl.
    rewrite (build_identifier_alphabet s H), IH. reflexivity.
Qed.

Lemma version_core_alphabet (s : string) :
  SemVer.version_core s -> Str.all SemVer.alphabet s = true.
Proof.
  destruct 1 as [major minor patch H1 H2 H3].
  assert (forall x, SemVer.numeric_identifier x -> Str.all SemVer.alphabet x = true)
    as Hn.
  { intros x Hx. apply (all_impl SemVer.identifier_character);
      [apply identifier_character_alphabet | apply numeric_identifier_all, Hx]. }
  rewrite all_app. simpl. rewrite all_app. simpl.
  rewrite (Hn _ H1), (Hn _ H2), (Hn _ H3). reflexivity.
Qed.

(** A valid version is written with letters, digits, "-", "." and "+"
    only. *)
Lemma valid_semver_alphabet (s : string) :
  SemVer.valid_semver s -> Str.all SemVer.alphabet s = true.
Proof.
  destruct 1 as [c Hc | c p Hc Hp | c b Hc Hb | c p b Hc Hp Hb];
    rewrite ?all_app; simpl; rewrite ?all_app; simpl;
    rewrite ?(version_core_alphabet c Hc), ?(pre_release_alphabet _ Hp),
            ?(build_alphabet _ Hb); reflexivity.
Qed.

(** C8, at "1.0.0" followed by a line feed: the validator accepts the
    text, which the SemVer grammar does not derive. *)
Theorem sem_ver_validator_accepts_final_newline :
  sem_ver_validator Examples.version_with_newline = Ok tt /\
  ~ SemVer.valid_semver Examples.version_with_newline /\
  sem_ver_validator "1.0.0" = Ok tt /\
  sem_ver_validator "1.02.0" = Err "Invalid version (semver)".
Proof.
  split; [reflexivity |]. split; [| split; reflexivity].
  intros H. apply valid_semver_alphabet in H. discriminate H.
Qed.

End SemVerFacts.

(** ** [Re.fullmatch] decides the language of an expression *)

Section RegexFacts.

Import Re.

Lemma append_nil_l (s : string) : "" ++ s = s.
Proof. reflexivity. Qed.

Lemma append_cons (c : ascii) (s1 s2 : string) :
  String c s1 ++ s2 = String c (s1 ++ s2).
Proof. reflexivity. Qed.

Lemma append_nil_r (s : string) : s ++ "" = s.
Proof.
  induction s as [| c s IH]; [reflexivity |].
  rewrite append_cons, IH. reflexivity.
Qed.

Lemma append_assoc (s1 s2 s3 : string) : (s1 ++ s2) ++ s3 = s1 ++ (s2 ++ s3).
Proof.
  induction s1 as [| c s1 IH]; [reflexivity |].
  rewrite !append_cons, IH. reflexivity.
Qed.

Lemma append_eq_nil (s1 s2 : string) : s1 ++ s2 = "" -> s1 = "" /\ s2 = "".
Proof.
  destruct s1; [rewrite append_nil_l; tauto | rewrite append_cons; discriminate].
Qed.

(** How a concatenation can start with the character [c]. *)
Lemma append_eq_cons (s1 s2 : string) (c : ascii) (s : string) :
  s1 ++ s2 = String c s ->
  (s1 = "" /\ s2 = String c s) \/ (exists s1', s1 = String c s1' /\ s = s1' ++ s2).
Proof.
  destruct s1 as [| c1 s1]; intros H.
  - left. split; [reflexivity | exact H].
  - right. rewrite append_cons in H. inversion H. exists s1. split; reflexivity.
Qed.

Lemma matches_never_inv (s : string) : matches Never s -> False.
Proof. inversion 1. Qed.

Lemma matches_empty_inv (s : string) : matches Empty s -> s = "".
Proof. inversion 1. reflexivity. Qed.

Lemma matches_class_inv (p : ascii -> bool) (s : string) :
  matches (Class p) s -> exists c, s = String c "" /\ p c = true.
Proof. inversion 1; subst. eexists. split; [reflexivity | assumption]. Qed.

Lemma matches_seq_inv (r1 r2 : t) (s : string) :
  matches (Seq r1 r2) s ->
  exists s1 s2, s = s1 ++ s2 /\ matches r1 s1 /\ matches r2 s2.
Proof. inversion 1; subst. eexists _, _. split; [reflexivity | split; assumption]. Qed.

Lemma matches_alt_inv (r1 r2 : t) (s : string) :
  matches (Alt r1 r2) s -> matches r1 s \/ matches r2 s.
Proof. inversion 1; subst; [left | right]; assumption. Qed.

Lemma matches_nil_nullable (r : t) (s : string) :
  matches r s -> s = "" -> nullable r = true.
Proof.
  induction 1 as [| p c Hp | r1 r2 s1 s2 _ IH1 _ IH2 | r1 r2 s _ IH | r1 r2 s _ IH
                  | r | r s1 s2 _ _ _ _]; intros Hs; simpl; try reflexivity.
  - discriminate Hs.
  - apply append_eq_nil in Hs. destruct Hs as [H1 H2].
    rewrite (IH1 H1), (IH2 H2). reflexivity.
  - rewrite (IH Hs). reflexivity.
  - rewrite (IH Hs). apply orb_true_r.
Qed.

Lemma nullable_matches (r : t) : nullable r = true <-> matches r "".
Proof.
  split; [| intros H; apply (matches_nil_nullable r "" H eq_refl)].
  induction r as [| | p | r1 IH1 r2 IH2 | r1 IH1 r2 IH2 | r IH]; simpl; intros H.
  - discriminate H.
  - constructor.
  - discriminate H.
  - apply andb_true_iff in H. destruct H as [H1 H2].
    apply (m_seq r1 r2 "" ""); [apply IH1, H1 | apply IH2, H2].
  - apply orb_true_iff in H. destruct H as [H | H].
    + apply m_alt_l, IH1, H.
    + apply m_alt_r, IH2, H.
  - constructor.
Qed.

(** A non-empty match of [Star r] starts with a non-empty match of [r]. *)
Lemma matches_star_cons (r : t) (c : ascii) (s : string) :
  matches (Star r) (String c s) ->
  exists s1 s2, s = s1 ++ s2 /\ matches r (String c s1) /\ matches (Star r) s2.
Proof.
  intros H. remember (Star r) as r' eqn:Hr. remember (String c s) as s' eqn:Hs.
  revert s Hs.
  induction H as [| | | | | r0 | r0 s1 s2 H1 _ H2 IH2]; intros s0 Hs;
    try discriminate Hr; [discriminate Hs |].
  inversion Hr; subst r0.
  apply append_eq_cons in Hs. destruct Hs as [[-> Hs2] | (s1' & -> & ->)].
  - apply (IH2 eq_refl s0 Hs2).
  - exists s1', s2. split; [reflexivity |]. split; assumption.
Qed.

Lemma deriv_sound (c : ascii) (r : t) (s : string) :
  matches (deriv c r) s -> matches r (String c s).
Proof.
  revert s.
  induction r as [| | p | r1 IH1 r2 IH2 | r1 IH1 r2 IH2 | r IH]; simpl; intros s H.
  - destruct (matches_never_inv s H).
  - destruct (matches_never_inv s H).
  - destruct (p c) eqn:Hp; [| destruct (matches_never_inv s H)].
    apply matches_empty_inv in H. subst s. constructor. exact Hp.
  - assert (forall s, matches (Seq (deriv c r1) r2) s -> matches (Seq r1 r2) (String c s))
      as Hseq.
    { intros s0 H0. apply matches_seq_inv in H0.
      destruct H0 as (s1 & s2 & -> & Ha & Hb).
      apply (m_seq r1 r2 (String c s1) s2); [apply IH1, Ha | exact Hb]. }
    destruct (nullable r1) eqn:Hn; [| apply Hseq, H].
    apply matches_alt_inv in H. destruct H as [Ha | Hb]; [apply Hseq, Ha |].
    apply (m_seq r1 r2 "" (String c s)); [apply nullable_matches, Hn | apply IH2, Hb].
  - apply matches_alt_inv in H. destruct H as [Ha | Hb].
    + apply m_alt_l, IH1, Ha.
    + apply m_alt_r, IH2, Hb.
  - apply matches_seq_inv in H. destruct H as (s1 & s2 & -> & Ha & Hb).
    apply (m_star_cons r (String c s1) s2); [apply IH, Ha | exact Hb].
Qed.

Lemma deriv_complete (c : ascii) (r : t) (s : string) :
  matches r (String c s) -> matches (deriv c r) s.
Proof.
  revert s.
  induction r as [| | p | r1 IH1 r2 IH2 | r1 IH1 r2 IH2 | r IH]; simpl; intros s H.
  - destruct (matches_never_inv _ H).
  - apply matches_empty_inv in H. discriminate H.
  - apply matches_class_inv in H. destruct H as (c' & Hs & Hp).
    inversion Hs; subst. rewrite Hp. constructor.
  - apply matches_seq_inv in H. destruct H as (s1 & s2 & Hs & Ha & Hb).
    symmetry in Hs. apply append_eq_cons in Hs.
    destruct Hs as [[-> ->] | (s1' & -> & ->)].
    + assert (nullable r1 = true) as -> by (apply nullable_matches, Ha).
      apply m_alt_r, IH2, Hb.
    + assert (matches (Seq (deriv c r1) r2) (s1' ++ s2)) as Hseq.
      { apply m_seq; [apply IH1, Ha | exact Hb]. }
      destruct (nullable r1); [apply m_alt_l |]; exact Hseq.
  - apply matches_alt_inv in H. destruct H as [Ha | Hb].
    + apply m_alt_l, IH1, Ha.
    + apply m_alt_r, IH2, Hb.
  - apply matches_star_cons in H. destruct H as (s1 & s2 & -> & Ha & Hb).
    apply m_seq; [apply IH, Ha | exact Hb].
Qed.

(** [fullmatch] is true exactly on the strings of the language. *)
Lemma fullmatch_matches (r : t) (s : string) :
  fullmatch r s = true <-> matches r s.
Proof.
  revert r. induction s as [| c s IH]; intros r; simpl.
  - apply nullable_matches.
  - rewrite IH. split; [apply deriv_sound | apply deriv_complete].
Qed.

Lemma before_final_newline_cons (c c2 : ascii) (s2 : string) :
  before_final_newline (String c (String c2 s2))
  = match before_final_newline (String c2 s2) with
    | Some r => Some (String c r)
    | None => None
    end.
Proof. reflexivity. Qed.

Lemma before_final_newline_sound (s s' : string) :
  before_final_newline s = Some s' -> s = s' ++ String "010" "".
Proof.
  revert s'. induction s as [| c s IH]; intros s' H; [discriminate H |].
  destruct s as [| c2 s2].
  - simpl in H. destruct (Ascii.eqb_spec c "010") as [-> | Hne]; [| discriminate H].
    inversion H. reflexivity.
  - rewrite before_final_newline_cons in H.
    destruct (before_final_newline (String c2 s2)) as [r |]; [| discriminate H].
    inversion H. rewrite append_cons, <- (IH r eq_refl). reflexivity.
Qed.

Lemma before_final_newline_complete (s' : string) :
  before_final_newline (s' ++ String "010" "") = Some s'.
Proof.
  induction s' as [| a s' IH]; [reflexivity |].
  rewrite append_cons. destruct (s' ++ String "010" "") as [| c2 s2] eqn:Hs.
  - destruct s'; discriminate Hs.
  - rewrite before_final_newline_cons, IH. reflexivity.
Qed.

Lemma before_final_newline_spec (s s' : string) :
  before_final_newline s = Some s' <-> s = s' ++ String "010" "".
Proof.
  split; [apply before_final_newline_sound |].
  intros ->. apply before_final_newline_complete.
Qed.

(** The search of an anchored pattern: the whole value matches, or the
    value without the line feed that ends it does. *)
Lemma search_anchored_matches (r : t) (s : string) :
  search_anchored r s = true <->
  matches r s \/ exists s', s = s' ++ String "010" "" /\ matches r s'.
Proof.
  unfold search_anchored. rewrite orb_true_iff, fullmatch_matches.
  split; intros [H | H]; try (left; exact H); right.
  - destruct (before_final_newline s) as [s' |] eqn:Hb; [| discriminate].
    exists s'. split; [apply before_final_newline_spec, Hb | apply fullmatch_matches, H].
  - destruct H as (s' & Hs & Hm). apply before_final_newline_spec in Hs.
    rewrite Hs. apply fullmatch_matches, Hm.
Qed.

End RegexFacts.

(** ** The pattern and the grammar derive the same versions *)

Section PatternGrammar.

Import Re Validators.

Lemma matches_chr (c : ascii) : matches (Chr c) (String c "").
Proof. apply m_class. apply Ascii.eqb_refl. Qed.

Lemma matches_chr_inv (c : ascii) (s : string) :
  matches (Chr c) s -> s = String c "".
Proof.
  intros H. apply matches_class_inv in H. destruct H as (c' & -> & Hc).
  apply Ascii.eqb_eq in Hc. subst c'. reflexivity.
Qed.

(** The strings of [Star (Class p)] are the strings over [p]. *)
Lemma matches_star_class (p : ascii -> bool) (s : string) :
  matches (Star (Class p)) s <-> Str.all p s = true.
Proof.
  split.
  - revert p. induction s as [| c s IH]; intros p H; [reflexivity |].
    apply matches_star_cons in H. destruct H as (s1 & s2 & -> & Ha & Hb).
    apply matches_class_inv in Ha. destruct Ha as (c' & Hs & Hp).
    inversion Hs; subst. rewrite append_nil_l. simpl.
    rewrite Hp. apply (IH p Hb).
  - induction s as [| c s IH]; simpl; intros H; [constructor |].
    apply andb_true_iff in H. destruct H as [Hc Hs].
    apply (m_star_cons (Class p) (String c "") s); [apply m_class, Hc | apply IH, Hs].
Qed.

Lemma matches_plus_class (p : ascii -> bool) (s : string) :
  matches (Plus (Class p)) s <-> s <> "" /\ Str.all p s = true.
Proof.
  unfold Plus. split.
  - intros H. apply matches_seq_inv in H. destruct H as (s1 & s2 & -> & Ha & Hb).
    apply matches_class_inv in Ha. destruct Ha as (c & -> & Hc).
    apply matches_star_class in Hb. rewrite append_cons, append_nil_l.
    split; [discriminate |]. simpl. rewrite Hc, Hb. reflexivity.
  - intros [Hne H]. destruct s as [| c s]; [congruence |].
    simpl in H. apply andb_true_iff in H. destruct H as [Hc Hs].
    apply (m_seq (Class p) (Star (Class p)) (String c "") s);
      [apply m_class, Hc | apply matches_star_class, Hs].
Qed.

(** The classes of the pattern are the character sets of the grammar. *)
Lemma letter_hyphen_non_digit (c : ascii) :
  letter c || hyphen c = SemVer.non_digit c.
Proof.
  unfold letter, hyphen, SemVer.non_digit, SemVer.letter.
  rewrite (orb_comm (Str.in_range 97 122 c)). reflexivity.
Qed.

Lemma alnum_hyphen_identifier_character (c : ascii) :
  Str.in_range 48 57 c || letter c || hyphen c = SemVer.identifier_character c.
Proof.
  unfold SemVer.identifier_character, SemVer.digit.
  rewrite <- letter_hyphen_non_digit. symmetry. apply orb_assoc.
Qed.

Lemma all_ext (p q : ascii -> bool) (s : string) :
  (forall c, p c = q c) -> Str.all p s = Str.all q s.
Proof.
  intros H. induction s as [| c s IH]; simpl; [reflexivity |].
  rewrite H, IH. reflexivity.
Qed.

Lemma digits_iff (s : string) :
  SemVer.digits s <-> s <> "" /\ Str.all SemVer.digit s = true.
Proof.
  split.
  - intros H. split; [destruct H; discriminate | apply digits_all, H].
  - induction s as [| c s IH]; intros [Hne H]; [congruence |].
    simpl in H. apply andb_true_iff in H. destruct H as [Hc Hs].
    destruct s as [| c2 s2]; [apply SemVer.digits_one, Hc |].
    apply SemVer.digits_more; [exact Hc |]. apply IH. split; [discriminate | exact Hs].
Qed.

Lemma identifier_characters_iff (s : string) :
  SemVer.identifier_characters s <->
  s <> "" /\ Str.all SemVer.identifier_character s = true.
Proof.
  split.
  - intros H. split; [destruct H; discriminate | apply identifier_characters_all, H].
  - induction s as [| c s IH]; intros [Hne H]; [congruence |].
    simpl in H. apply andb_true_iff in H. destruct H as [Hc Hs].
    destruct s as [| c2 s2]; [apply SemVer.idchars_one, Hc |].
    apply SemVer.idchars_more; [exact Hc |]. apply IH. split; [discriminate | exact Hs].
Qed.

(** *** Numeric identifiers *)

Lemma numeric_pattern_grammar (s : string) :
  matches re_numeric s <-> SemVer.numeric_identifier s.
Proof.
  unfold re_numeric. split.
  - intros H. apply matches_alt_inv in H. destruct H as [H | H].
    + apply matches_chr_inv in H. subst s. constructor.
    + apply matches_seq_inv in H. destruct H as (s1 & s2 & -> & Ha & Hb).
      apply matches_class_inv in Ha. destruct Ha as (c & -> & Hc).
      apply matches_star_class in Hb. rewrite append_cons, append_nil_l.
      destruct s2 as [| c2 s2]; [apply SemVer.numeric_positive, Hc |].
      apply SemVer.numeric_positive_digits; [exact Hc |].
      apply digits_iff. split; [discriminate | exact Hb].
  - intros [| c Hc | c s' Hc Hs].
    + apply m_alt_l, matches_chr.
    + apply m_alt_r.
      apply (m_seq cls_1_9 (Star cls_d) (String c "") ""); [apply m_class, Hc | constructor].
    + apply m_alt_r.
      apply (m_seq cls_1_9 (Star cls_d) (String c "") s'); [apply m_class, Hc |].
      apply matches_star_class, digits_all, Hs.
Qed.

(** *** Alphanumeric identifiers *)

Lemma alnum_pattern_shape (s : string) : matches re_alnum s <-> SemVer.alnum_shape s.
Proof.
  unfold re_alnum, SemVer.alnum_shape. split.
  - intros H. apply matches_seq_inv in H. destruct H as (d & s2 & -> & Hd & H).
    apply matches_seq_inv in H. destruct H as (s3 & rest & -> & Hc & Hr).
    apply matches_class_inv in Hc. destruct Hc as (c & -> & Hc).
    apply matches_star_class in Hd, Hr.
    exists d, c, rest. rewrite append_cons, append_nil_l.
    split; [reflexivity |]. split; [exact Hd |].
    rewrite letter_hyphen_non_digit in Hc. split; [exact Hc |].
    rewrite <- Hr. apply all_ext. intros a. symmetry.
    apply alnum_hyphen_identifier_character.
  - intros (d & c & rest & -> & Hd & Hc & Hr).
    apply m_seq; [apply matches_star_class, Hd |].
    apply (m_seq cls_letter_hyphen (Star cls_alnum_hyphen) (String c "") rest).
    + apply m_class. rewrite letter_hyphen_non_digit. exact Hc.
    + apply matches_star_class. rewrite <- Hr. apply all_ext.
      apply alnum_hyphen_identifier_character.
Qed.

(** A run of identifier characters is all digits or has a first
    non-digit. *)
Lemma first_non_digit (s : string) :
  Str.all SemVer.identifier_character s = true ->
  Str.all SemVer.digit s = true \/ SemVer.alnum_shape s.
Proof.
  induction s as [| a s IH]; simpl; intros H; [left; reflexivity |].
  apply andb_true_iff in H. destruct H as [Ha Hs].
  destruct (SemVer.non_digit a) eqn:Hnd.
  - right. exists "", a, s. split; [reflexivity |]. split; [reflexivity |].
    split; [exact Hnd | exact Hs].
  - unfold SemVer.identifier_character in Ha. rewrite Hnd, orb_false_r in Ha.
    destruct (IH Hs) as [Hd | (d & c & rest & -> & Hd & Hc & Hr)].
    + left. rewrite Ha, Hd. reflexivity.
    + right. exists (String a d), c, rest. split; [reflexivity |].
      simpl. rewrite Ha, Hd. split; [reflexivity |]. split; [exact Hc | exact Hr].
Qed.

Lemma all_digit_identifier_character (s : string) :
  Str.all SemVer.digit s = true -> Str.all SemVer.identifier_character s = true.
Proof. apply all_impl. apply digit_identifier_character. Qed.

Lemma alnum_shape_grammar (s : string) :
  SemVer.alnum_shape s <-> SemVer.alphanumeric_identifier s.
Proof.
  split.
  - intros (d & c & rest & -> & Hd & Hc & Hr).
    destruct d as [| a d], rest as [| b rest].
    + apply SemVer.alnum_nd, Hc.
    + apply SemVer.alnum_nd_ic; [exact Hc |].
      apply identifier_characters_iff. split; [discriminate | exact Hr].
    + apply SemVer.alnum_ic_nd; [| exact Hc].
      apply identifier_characters_iff. split; [discriminate |].
      apply all_digit_identifier_character, Hd.
    + apply SemVer.alnum_ic_nd_ic; [| exact Hc |].
      * apply identifier_characters_iff. split; [discriminate |].
        apply all_digit_identifier_character, Hd.
      * apply identifier_characters_iff. split; [discriminate | exact Hr].
  - intros H.
    assert (exists pre c post,
              s = pre ++ String c post /\
              Str.all SemVer.identifier_character pre = true /\
              SemVer.non_digit c = true /\
              Str.all SemVer.identifier_character post = true) as Hsplit.
    { destruct H as [c Hc | c s' Hc Hs | s' c Hs Hc | s1 c s2 Hs1 Hc Hs2].
      - exists "", c, "". repeat split; assumption.
      - exists "", c, s'. repeat split; try assumption.
        apply identifier_characters_all, Hs.
      - exists s', c, "". repeat split; try assumption.
        apply identifier_characters_all, Hs.
      - exists s1, c, s2. repeat split; try assumption;
          apply identifier_characters_all; assumption. }
    destruct Hsplit as (pre & c & post & -> & Hpre & Hc & Hpost).
    clear H. induction pre as [| a pre IH].
    + exists "", c, post. repeat split; assumption.
    + simpl in Hpre. apply andb_true_iff in Hpre. destruct Hpre as [Ha Hpre].
      destruct (SemVer.non_digit a) eqn:Hnd.
      * exists "", a, (pre ++ String c post). split; [reflexivity |].
        split; [reflexivity |]. split; [exact Hnd |].
        rewrite all_app. simpl.
        rewrite Hpre, (non_digit_identifier_character c Hc), Hpost. reflexivity.
      * unfold SemVer.identifier_character in Ha. rewrite Hnd, orb_false_r in Ha.
        destruct (IH Hpre) as (d & c' & rest & Heq & Hd & Hc' & Hr).
        exists (String a d), c', rest. rewrite !append_cons, Heq.
        split; [reflexivity |]. simpl. rewrite Ha, Hd.
        split; [reflexivity |]. split; assumption.
Qed.

Lemma alnum_pattern_grammar (s : string) :
  matches re_alnum s <-> SemVer.alphanumeric_identifier s.
Proof. rewrite alnum_pattern_shape. apply alnum_shape_grammar. Qed.

(** *** Pre-release and build identifiers *)

Lemma prerelease_id_pattern_grammar (s : string) :
  matches re_prerelease_id s <-> SemVer.pre_release_identifier s.
Proof.
  unfold re_prerelease_id. split.
  - intros H. apply matches_alt_inv in H. destruct H as [H | H].
    + apply SemVer.pre_numeric, numeric_pattern_grammar. apply m_alt_l, H.
    + apply matches_alt_inv in H. destruct H as [H | H].
      * apply SemVer.pre_numeric, numeric_pattern_grammar. apply m_alt_r, H.
      * apply SemVer.pre_alnum, alnum_pattern_grammar, H.
  - intros [s' H | s' H].
    + apply m_alt_r, m_alt_r, alnum_pattern_grammar, H.
    + apply numeric_pattern_grammar in H. apply matches_alt_inv in H.
      destruct H as [H | H]; [apply m_alt_l, H | apply m_alt_r, m_alt_l, H].
Qed.

Lemma build_id_pattern_grammar (s : string) :
  matches (Plus cls_alnum_hyphen) s <-> SemVer.build_identifier s.
Proof.
  unfold cls_alnum_hyphen. rewrite matches_plus_class.
  rewrite (all_ext _ _ s alnum_hyphen_identifier_character). split.
  - intros [Hne H]. destruct (first_non_digit s H) as [Hd | Hshape].
    + apply SemVer.build_digits, digits_iff. split; assumption.
    + apply SemVer.build_alnum, alnum_shape_grammar, Hshape.
  - intros [s' H | s' H].
    + split; [| apply alphanumeric_identifier_all, H].
      destruct H as [| | s1 c _ _ | s1 c s2 _ _ _]; try discriminate;
        destruct s1; discriminate.
    + apply digits_iff in H. destruct H as [Hne H].
      split; [exact Hne | apply all_digit_identifier_character, H].
Qed.

End PatternGrammar.

(** ** Dot-separated lists *)

Section DottedFacts.

Import Re Validators.

(** Induction on the iterations of a star. *)
Lemma matches_star_ind (r : t) (Q : string -> Prop) :
  Q "" ->
  (forall s1 s2, matches r s1 -> matches (Star r) s2 -> Q s2 -> Q (s1 ++ s2)) ->
  forall s, matches (Star r) s -> Q s.
Proof.
  intros Hnil Hcons s H. remember (Star r) as r' eqn:Hr.
  induction H as [| | | | | r0 | r0 s1 s2 H1 _ H2 IH2]; try discriminate Hr.
  - exact Hnil.
  - inversion Hr; subst r0. apply (Hcons s1 s2 H1 H2).
    apply IH2; [reflexivity | exact Hcons].
Qed.

Variable item : Re.t.
Variables I L : string -> Prop.

Hypothesis item_I : forall s, matches item s <-> I s.
Hypothesis L_one : forall s, I s -> L s.
Hypothesis L_more : forall s rest, I s -> L rest -> L (s ++ String "." rest).
Hypothesis L_induction :
  forall Q : string -> Prop,
    (forall s, I s -> Q s) ->
    (forall s rest, I s -> L rest -> Q rest -> Q (s ++ String "." rest)) ->
    forall s, L s -> Q s.

Lemma dotted_tail_grammar (s2 : string) :
  matches (Star (Seq (Chr ".") item)) s2 -> forall s1, I s1 -> L (s1 ++ s2).
Proof.
  intros H. pattern s2. revert s2 H. apply matches_star_ind.
  - intros s1 H1. rewrite append_nil_r. apply L_one, H1.
  - intros a b Ha _ IH s1 H1.
    apply matches_seq_inv in Ha. destruct Ha as (dot & x & -> & Hdot & Hx).
    apply matches_chr_inv in Hdot. subst dot.
    rewrite append_cons, append_nil_l, append_cons.
    apply L_more; [exact H1 |]. apply IH, item_I, Hx.
Qed.

Lemma dotted_pattern_grammar (s : string) : matches (re_dotted item) s <-> L s.
Proof.
  unfold re_dotted. split.
  - intros H. apply matches_seq_inv in H. destruct H as (s1 & s2 & -> & H1 & H2).
    apply dotted_tail_grammar; [exact H2 | apply item_I, H1].
  - revert s. apply L_induction.
    + intros s H. rewrite <- (append_nil_r s).
      apply m_seq; [apply item_I, H | constructor].
    + intros s rest Hs _ IH.
      apply matches_seq_inv in IH. destruct IH as (r1 & r2 & -> & Hr1 & Hr2).
      apply m_seq; [apply item_I, Hs |].
      change (String "." (r1 ++ r2)) with (String "." "" ++ (r1 ++ r2)).
      rewrite <- append_assoc.
      apply m_star_cons; [| exact Hr2].
      apply m_seq; [apply matches_chr | exact Hr1].
Qed.

End DottedFacts.

(** ** The whole version *)

Section VersionFacts.

Import Re Validators.

Lemma prerelease_pattern_grammar (s : string) :
  matches (re_dotted re_prerelease_id) s <-> SemVer.pre_release s.
Proof.
  apply (dotted_pattern_grammar re_prerelease_id SemVer.pre_release_identifier).
  - apply prerelease_id_pattern_grammar.
  - apply SemVer.pre_one.
  - apply SemVer.pre_more.
  - intros Q H1 H2 s0 H. induction H as [s0 H | s0 rest H Hrest IH].
    + apply H1, H.
    + apply H2; assumption.
Qed.

Lemma build_pattern_grammar (s : string) :
  matches (re_dotted (Plus cls_alnum_hyphen)) s <-> SemVer.build s.
Proof.
  apply (dotted_pattern_grammar (Plus cls_alnum_hyphen) SemVer.build_identifier).
  - apply build_id_pattern_grammar.
  - apply SemVer.build_one.
  - apply SemVer.build_more.
  - intros Q H1 H2 s0 H. induction H as [s0 H | s0 rest H Hrest IH].
    + apply H1, H.
    + apply H2; assumption.
Qed.

(** An optional group that starts with the character [c]. *)
Lemma opt_group (c : ascii) (r : Re.t) (s : string) :
  matches (Opt (Seq (Chr c) r)) s <->
  s = "" \/ exists s', s = String c s' /\ matches r s'.
Proof.
  unfold Opt. split.
  - intros H. apply matches_alt_inv in H. destruct H as [H | H].
    + right. apply matches_seq_inv in H. destruct H as (s1 & s2 & -> & H1 & H2).
      apply matches_chr_inv in H1. subst s1. exists s2. split; [reflexivity | exact H2].
    + left. apply matches_empty_inv, H.
  - intros [-> | (s' & -> & H)].
    + apply m_alt_r. constructor.
    + apply m_alt_l. apply (m_seq (Chr c) r (String c "") s'); [apply matches_chr | exact H].
Qed.

Ltac norm_append :=
  repeat (rewrite append_assoc || rewrite append_cons
          || rewrite append_nil_l || rewrite append_nil_r).

(** The strings of the pattern: a core, then the optional groups. *)
Lemma sem_ver_pattern_shape (s : string) :
  matches SEM_VER_REGEX s <->
  exists c p b,
    s = c ++ (p ++ b) /\ SemVer.version_core c /\
    (p = "" \/ exists p', p = String "-" p' /\ SemVer.pre_release p') /\
    (b = "" \/ exists b', b = String "+" b' /\ SemVer.build b').
Proof.
  unfold SEM_VER_REGEX. split.
  - intros H.
    apply matches_seq_inv in H. destruct H as (major & s1 & -> & Hmajor & H).
    apply matches_seq_inv in H. destruct H as (dot1 & s2 & -> & Hdot1 & H).
    apply matches_seq_inv in H. destruct H as (minor & s3 & -> & Hminor & H).
    apply matches_seq_inv in H. destruct H as (dot2 & s4 & -> & Hdot2 & H).
    apply matches_seq_inv in H. destruct H as (patch & s5 & -> & Hpatch & H).
    apply matches_seq_inv in H. destruct H as (p & b & -> & Hp & Hb).
    apply matches_chr_inv in Hdot1, Hdot2. subst dot1 dot2.
    apply numeric_pattern_grammar in Hmajor, Hminor, Hpatch.
    apply opt_group in Hp, Hb.
    exists (major ++ String "." (minor ++ String "." patch)), p, b.
    split; [norm_append; reflexivity |].
    split; [constructor; assumption |].
    split.
    + destruct Hp as [Hp | (p' & Hp' & Hp)]; [left; exact Hp |].
      right. exists p'. split; [exact Hp' | apply prerelease_pattern_grammar, Hp].
    + destruct Hb as [Hb | (b' & Hb' & Hb)]; [left; exact Hb |].
      right. exists b'. split; [exact Hb' | apply build_pattern_grammar, Hb].
  - intros (c & p & b & -> & Hc & Hp & Hb).
    destruct Hc as [major minor patch Hmajor Hminor Hpatch].
    apply numeric_pattern_grammar in Hmajor, Hminor, Hpatch.
    assert (matches re_prerelease p) as Hp'.
    { apply opt_group. destruct Hp as [Hp | (p' & Hp1 & Hp2)]; [left; exact Hp |].
      right. exists p'. split; [exact Hp1 | apply prerelease_pattern_grammar, Hp2]. }
    assert (matches re_build b) as Hb'.
    { apply opt_group. destruct Hb as [Hb | (b' & Hb1 & Hb2)]; [left; exact Hb |].
      right. exists b'. split; [exact Hb1 | apply build_pattern_grammar, Hb2]. }
    replace ((major ++ String "." (minor ++ String "." patch)) ++ (p ++ b))
      with (major ++ (String "." "" ++ (minor ++ (String "." "" ++ (patch ++ (p ++ b))))))
      by (norm_append; reflexivity).
    repeat (apply m_seq; try assumption; try apply matches_chr).
Qed.

(** The pattern derives exactly the valid versions of the grammar. *)
Lemma sem_ver_pattern_grammar (s : string) :
  matches SEM_VER_REGEX s <-> SemVer.valid_semver s.
Proof.
  rewrite sem_ver_pattern_shape. split.
  - intros (c & p & b & -> & Hc & Hp & Hb).
    destruct Hp as [-> | (p' & -> & Hp)], Hb as [-> | (b' & -> & Hb)].
    + norm_append. apply SemVer.semver_core, Hc.
    + norm_append. apply SemVer.semver_build; assumption.
    + rewrite append_nil_r. apply SemVer.semver_pre; assumption.
    + rewrite append_cons. apply SemVer.semver_pre_build; assumption.
  - intros [c Hc | c p Hc Hp | c b Hc Hb | c p b Hc Hp Hb].
    + exists c, "", "". split; [norm_append; reflexivity |].
      split; [exact Hc |]. split; left; reflexivity.
    + exists c, (String "-" p), "". split; [norm_append; reflexivity |].
      split; [exact Hc |]. split; [right; exists p; split; [reflexivity | exact Hp] |].
      left; reflexivity.
    + exists c, "", (String "+" b). split; [norm_append; reflexivity |].
      split; [exact Hc |]. split; [left; reflexivity |].
      right; exists b; split; [reflexivity | exact Hb].
    + exists c, (String "-" p), (String "+" b). split; [norm_append; reflexivity |].
      split; [exact Hc |].
      split; [right; exists p; split; [reflexivity | exact Hp] |].
      right; exists b; split; [reflexivity | exact Hb].
Qed.

(** What the validator accepts: the valid versions, and the valid
    versions followed by one line feed. *)
Lemma validator_accepts_iff (s : string) :
  sem_ver_validator s = Ok tt <->
  SemVer.valid_semver s \/
  exists s', s = s' ++ String "010" "" /\ SemVer.valid_semver s'.
Proof.
  unfold sem_ver_validator, RegexValidator.
  destruct (search_anchored SEM_VER_REGEX s) eqn:Hs.
  - apply search_anchored_matches in Hs. split; [intros _ | reflexivity].
    destruct Hs as [H | (s' & -> & H)].
    + left. apply sem_ver_pattern_grammar, H.
    + right. exists s'. split; [reflexivity | apply sem_ver_pattern_grammar, H].
  - split; [discriminate |]. intros H. exfalso.
    assert (search_anchored SEM_VER_REGEX s = true) as Ht; [| congruence].
    apply search_anchored_matches.
    destruct H as [H | (s' & -> & H)].
    + left. apply sem_ver_pattern_grammar, H.
    + right. exists s'. split; [reflexivity | apply sem_ver_pattern_grammar, H].
Qed.

(** Every valid version is accepted, and a value that does not end in a
    line feed is accepted only if it is a valid version. *)
Lemma validator_without_newline (s : string) :
  (SemVer.valid_semver s -> sem_ver_validator s = Ok tt) /\
  (before_final_newline s = None ->
   sem_ver_validator s = Ok tt -> SemVer.valid_semver s).
Proof.
  split.
  - intros H. apply validator_accepts_iff. left. exact H.
  - intros Hn H. apply validator_accepts_iff in H.
    destruct H as [H | (s' & Hs & _)]; [exact H |].
    apply before_final_newline_spec in Hs. congruence.
Qed.

End VersionFacts.

(** * Further properties of the code *)

(** ** The colour validator *)

Section ColorFacts.

Import Re Validators.

Lemma matches_repeat_class (p : ascii -> bool) (n : nat) (s : string) :
  matches (Repeat n (Class p)) s <->
  String.length s = n /\ Str.all p s = true.
Proof.
  revert s. induction n as [| n IH]; intros s; simpl.
  - split.
    + intros H. apply matches_empty_inv in H. subst s. split; reflexivity.
    + intros [Hl _]. destruct s; [constructor | discriminate Hl].
  - split.
    + intros H. apply matches_seq_inv in H. destruct H as (s1 & s2 & -> & H1 & H2).
      apply matches_class_inv in H1. destruct H1 as (c & -> & Hc).
      apply IH in H2. destruct H2 as [Hl Ha].
      rewrite append_cons, append_nil_l. simpl. rewrite Hl, Hc, Ha.
      split; reflexivity.
    + intros [Hl Ha]. destruct s as [| c s]; [discriminate Hl |].
      simpl in Hl, Ha. apply andb_true_iff in Ha. destruct Ha as [Hc Ha].
      apply (m_seq (Class p) (Repeat n (Class p)) (String c "") s).
      * apply m_class, Hc.
      * apply IH. split; [congruence | exact Ha].
Qed.

Lemma hex_pattern_color (s : string) :
  matches HEX_ARGB_REGEX s <-> HexColor.is_hex_color s = true.
Proof.
  unfold HEX_ARGB_REGEX, cls_hex, HexColor.is_hex_color. split.
  - intros H. apply matches_seq_inv in H. destruct H as (s1 & s2 & -> & H1 & H2).
    apply matches_chr_inv in H1. subst s1.
    apply matches_repeat_class in H2. destruct H2 as [Hl Ha].
    rewrite append_cons, append_nil_l. cbv iota beta.
    rewrite Hl. simpl. exact Ha.
  - destruct s as [| c s]; [discriminate |].
    destruct (Ascii.eqb_spec c "#") as [-> | Hne].
    + intros H. apply andb_true_iff in H. destruct H as [Hl Ha].
      apply Nat.eqb_eq in Hl.
      apply (m_seq (Chr "#") _ (String "#" "") s); [apply matches_chr |].
      apply matches_repeat_class. split; assumption.
    + intros H. exfalso.
      destruct c as [[] [] [] [] [] [] [] []]; try discriminate H.
      apply Hne. reflexivity.
Qed.

(** X1: the colour validator accepts exactly "#" followed by six
    hexadecimal digits, and such a colour followed by one line feed. *)
Theorem color_validator_accepts_iff (s : string) :
  color_validator s = Ok tt <->
  HexColor.is_hex_color s = true \/
  exists s', s = s' ++ String "010" "" /\ HexColor.is_hex_color s' = true.
Proof.
  unfold color_validator, RegexValidator.
  destruct (search_anchored HEX_ARGB_REGEX s) eqn:Hs.
  - apply search_anchored_matches in Hs. split; [intros _ | reflexivity].
    destruct Hs as [H | (s' & -> & H)].
    + left. apply hex_pattern_color, H.
    + right. exists s'. split; [reflexivity | apply hex_pattern_color, H].
  - split; [discriminate |]. intros H. exfalso.
    assert (search_anchored HEX_ARGB_REGEX s = true) as Ht; [| congruence].
    apply search_anchored_matches.
    destruct H as [H | (s' & -> & H)].
    + left. apply hex_pattern_color, H.
    + right. exists s'. split; [reflexivity | apply hex_pattern_color, H].
Qed.

(** X2: every version of the SemVer grammar, and every such version
    followed by one line feed, is accepted by the semantic-version
    validator; and among the values whose characters are all below
    U+0100, which are the strings of this development and on which
    [\d] is "0".."9", it accepts nothing else. (Beyond that range [\d]
    also matches the decimal digits of other scripts; such values are
    outside this statement.) *)
Theorem sem_ver_validator_accepts_iff (s : string) :
  sem_ver_validator s = Ok tt <->
  SemVer.valid_semver s \/
  exists s', s = s' ++ String "010" "" /\ SemVer.valid_semver s'.
Proof. apply validator_accepts_iff. Qed.

End ColorFacts.

(** ** [native_currency_path] *)

Section PathFacts.

Import PosixPath ChainModel.

Lemma str_take_drop (n : nat) (s : string) : take n s ++ drop n s = s.
Proof.
  revert s. induction n as [| n IH]; intros [| a s]; try reflexivity.
  simpl. rewrite append_cons, IH. reflexivity.
Qed.

Lemma str_drop_nil (n : nat) : drop n "" = "".
Proof. destruct n; reflexivity. Qed.

Lemma str_drop_drop (n m : nat) (s : string) : drop m (drop n s) = drop (n + m) s.
Proof.
  revert s. induction n as [| n IH]; intros s; [reflexivity |].
  destruct s as [| a s]; simpl; [apply str_drop_nil | apply IH].
Qed.

Lemma lacks_drop (c : ascii) (n : nat) (s : string) :
  lacks c s = true -> lacks c (drop n s) = true.
Proof.
  revert s. induction n as [| n IH]; intros [| a s] H; simpl; try exact H.
  apply IH. unfold lacks in H. simpl in H. apply andb_true_iff in H. apply H.
Qed.

Lemma rfind_lower (c : ascii) (s : string) : -1 <= rfind c s.
Proof.
  induction s as [| a s IH]; simpl; [lia |].
  destruct (0 <=? rfind c s) eqn:H; [apply Z.leb_le in H; lia |].
  destruct (Ascii.eqb a c); lia.
Qed.

Lemma rfind_absent (c : ascii) (s : string) :
  rfind c s < 0 -> lacks c s = true.
Proof.
  unfold lacks. induction s as [| a s IH]; simpl; [reflexivity |].
  destruct (0 <=? rfind c s) eqn:H.
  - apply Z.leb_le in H. lia.
  - apply Z.leb_gt in H. destruct (Ascii.eqb a c); [lia |].
    intros _. simpl. apply IH, H.
Qed.

(** At the index [rfind] gives stands the character, for the last
    time. *)
Lemma rfind_present (c : ascii) (s : string) :
  0 <= rfind c s ->
  exists rest, drop (Z.to_nat (rfind c s)) s = String c rest /\
               lacks c rest = true.
Proof.
  induction s as [| a s IH]; simpl; [lia |].
  destruct (0 <=? rfind c s) eqn:H.
  - apply Z.leb_le in H. intros _. destruct (IH H) as (rest & Hd & Hl).
    exists rest. split; [| exact Hl].
    replace (Z.to_nat (rfind c s + 1)) with (S (Z.to_nat (rfind c s))) by lia.
    exact Hd.
  - apply Z.leb_gt in H. destruct (Ascii.eqb_spec a c) as [-> | Hne]; [| lia].
    intros _. exists s. split; [reflexivity | apply rfind_absent, H].
Qed.

(** After the index of the last [c] there is no [c]. *)
Lemma lacks_after_rfind (c : ascii) (s : string) :
  lacks c (drop (Z.to_nat (rfind c s + 1)) s) = true.
Proof.
  pose proof (rfind_lower c s) as Hl.
  destruct (Z.eq_dec (rfind c s) (-1)) as [He | Hne].
  - rewrite He. simpl. apply rfind_absent. lia.
  - assert (0 <= rfind c s) as Hp by lia.
    destruct (rfind_present c s Hp) as (rest & Hd & Hr).
    replace (Z.to_nat (rfind c s + 1)) with (Z.to_nat (rfind c s) + 1)%nat by lia.
    rewrite <- str_drop_drop, Hd. exact Hr.
Qed.

(** The extension [splitext] returns is empty, or a dot followed by
    characters that are neither dots nor slashes; and the two parts
    make up the path. *)
Lemma splitext_extension (p : string) :
  fst (splitext p) ++ snd (splitext p) = p /\
  (snd (splitext p) = "" \/
   exists e, snd (splitext p) = String "." e /\
             lacks "." e = true /\ lacks "/" e = true).
Proof.
  unfold splitext.
  destruct (rfind "/" p <? rfind "." p) eqn:Hlt;
    [| simpl; split; [apply append_nil_r | left; reflexivity]].
  destruct (Str.all (Ascii.eqb ".") (slice (rfind "/" p + 1) (rfind "." p) p));
    [simpl; split; [apply append_nil_r | left; reflexivity] |].
  simpl. split; [apply str_take_drop |]. right.
  apply Z.ltb_lt in Hlt. pose proof (rfind_lower "/" p) as Hl.
  assert (0 <= rfind "." p) as Hp by lia.
  destruct (rfind_present "." p Hp) as (e & Hd & He).
  exists e. split; [exact Hd |]. split; [exact He |].
  assert (e = drop (Z.to_nat (rfind "." p - rfind "/" p))
                   (drop (Z.to_nat (rfind "/" p + 1)) p)) as ->.
  { rewrite str_drop_drop.
    replace (Z.to_nat (rfind "/" p + 1) + Z.to_nat (rfind "." p - rfind "/" p))%nat
      with (Z.to_nat (rfind "." p) + 1)%nat by lia.
    rewrite <- str_drop_drop, Hd. reflexivity. }
  apply lacks_drop, lacks_after_rfind.
Qed.

(** X3: the path of a currency logo is "chains/", the chain id,
    "/currency_logo" and the extension of the uploaded file name; the
    extension is a suffix of the file name that is empty or a dot
    followed by characters other than "." and "/", so the file always
    lands in the directory of its chain. *)
Theorem native_currency_path_shape (instance : Chain.t) (filename : string) :
  exists root ext,
    filename = root ++ ext /\
    native_currency_path instance filename
    = "chains/" ++ str_of_N (Chain.id instance) ++ "/currency_logo" ++ ext /\
    (ext = "" \/
     exists e, ext = String "." e /\ lacks "." e = true /\ lacks "/" e = true).
Proof.
  destruct (splitext_extension filename) as [Hp He].
  exists (fst (splitext filename)), (snd (splitext filename)).
  split; [symmetry; exact Hp |]. split; [reflexivity | exact He].
Qed.

Lemma to_uint_nonnil (n : N) : N.to_uint n <> Decimal.Nil.
Proof.
  intros H. pose proof (DecimalN.Unsigned.of_to n) as Hn. rewrite H in Hn.
  subst n. discriminate H.
Qed.

Lemma str_of_N_inj (n m : N) : str_of_N n = str_of_N m -> n = m.
Proof.
  unfold str_of_N. intros H.
  apply (f_equal NilZero.uint_of_string) in H.
  rewrite !NilZero.usu in H by apply to_uint_nonnil.
  inversion H as [Hu]. apply DecimalN.Unsigned.to_uint_inj, Hu.
Qed.

Lemma string_of_uint_lacks_slash (d : Decimal.uint) :
  lacks "/" (NilEmpty.string_of_uint d) = true.
Proof. induction d; simpl; try reflexivity; exact IHd. Qed.

Lemma str_of_N_lacks_slash (n : N) : lacks "/" (str_of_N n) = true.
Proof.
  unfold str_of_N, NilZero.string_of_uint.
  destruct (N.to_uint n); try reflexivity; apply string_of_uint_lacks_slash.
Qed.

(** Two texts without [c], each followed by [c], are equal when what
    they start is. *)
Lemma append_sep_inj (c : ascii) (s1 s2 r1 r2 : string) :
  lacks c s1 = true -> lacks c s2 = true ->
  s1 ++ String c r1 = s2 ++ String c r2 -> s1 = s2 /\ r1 = r2.
Proof.
  unfold lacks. revert s2. induction s1 as [| a s1 IH]; intros [| b s2] H1 H2 H.
  - rewrite !append_nil_l in H. inversion H. split; reflexivity.
  - rewrite append_nil_l, append_cons in H. inversion H; subst b.
    simpl in H2. rewrite Ascii.eqb_refl in H2. discriminate H2.
  - rewrite append_nil_l, append_cons in H. inversion H; subst a.
    simpl in H1. rewrite Ascii.eqb_refl in H1. discriminate H1.
  - rewrite !append_cons in H. inversion H as [[Hab Hrest]]. subst b.
    simpl in H1, H2. apply andb_true_iff in H1, H2.
    destruct (IH s2 (proj2 H1) (proj2 H2) Hrest) as [-> ->]. split; reflexivity.
Qed.

(** X4: two uploads get the same path exactly when they are for the
    same chain id and their file names have the same extension: chains
    never share a logo path, and the rest of the file name plays no
    part. *)
Theorem native_currency_path_eq_iff (c1 c2 : Chain.t) (f1 f2 : string) :
  native_currency_path c1 f1 = native_currency_path c2 f2 <->
  Chain.id c1 = Chain.id c2 /\ snd (splitext f1) = snd (splitext f2).
Proof.
  unfold native_currency_path. split.
  - intros H. rewrite !append_cons, !append_nil_l in H.
    inversion H as [H'].
    apply append_sep_inj in H'; try apply str_of_N_lacks_slash.
    destruct H' as [Hid Hext]. split; [apply str_of_N_inj, Hid |].
    inversion Hext. reflexivity.
  - intros [-> ->]. reflexivity.
Qed.

End PathFacts.

(** ** More on [GasPrice.clean] and the wallets of a chain *)

Section ModelFacts.

Import GasPrice Store.

(** X5: [clean] looks only at which fields are null, never at their
    values or at the other fields of the record, and at
    [oracle_parameter] only when an oracle uri is set: two records
    that agree on that get the same outcome. *)
Theorem clean_ignores_values (g g' : GasPrice.t) :
  is_not_None (oracle_uri g) = is_not_None (oracle_uri g') ->
  is_not_None (fixed_wei_value g) = is_not_None (fixed_wei_value g') ->
  (oracle_uri g <> None ->
   is_not_None (oracle_parameter g) = is_not_None (oracle_parameter g')) ->
  clean g = clean g'.
Proof.
  intros Hu Hf Hp. unfold clean, is_None. rewrite <- Hu, <- Hf.
  destruct (Bool.eqb (is_not_None (fixed_wei_value g)) (is_not_None (oracle_uri g)));
    [reflexivity |].
  destruct (oracle_uri g) as [u |] eqn:Hg; simpl; [| reflexivity].
  rewrite <- Hp by discriminate. reflexivity.
Qed.

Lemma clean_ignores_values_witness :
  clean MoreExamples.another_fixed_price = clean Examples.fixed_price.
Proof.
  apply (clean_ignores_values MoreExamples.another_fixed_price Examples.fixed_price).
  - reflexivity.
  - reflexivity.
  - intros H. exfalso. apply H. reflexivity.
Defined.

(** X6: the disabled and the enabled wallets of a chain add up to the
    wallets: the sizes of the two sets sum to the size of the wallet
    table. *)
Theorem disabled_wallets_size (db : Store.t) (chain : Chain.t) :
  (size (get_disabled_wallets db chain) + size (wallet_set db chain)
   = size (all_wallets db))%nat.
Proof.
  pose proof (wallet_set_subseteq db chain) as Hsub.
  unfold get_disabled_wallets.
  rewrite <- size_union by set_solver.
  f_equal. apply set_eq. intros w.
  rewrite elem_of_union, elem_of_difference.
  destruct (decide (w ∈ wallet_set db chain)) as [Hin | Hout].
  - split; [intros _; apply Hsub, Hin | intros _; right; exact Hin].
  - tauto.
Qed.

(** X7: enabling more wallets can only shrink the disabled set: when
    the wallet table is the same and the relation between wallets and
    chains grows, every wallet disabled afterwards was disabled
    before. *)
Theorem disabled_wallets_antitone (db db' : Store.t) (chain : Chain.t) :
  wallet_table db' = wallet_table db ->
  wallet_chains db ⊆ wallet_chains db' ->
  get_disabled_wallets db' chain ⊆ get_disabled_wallets db chain.
Proof.
  intros Ht Hc w. unfold get_disabled_wallets, all_wallets, wallet_set.
  rewrite !elem_of_difference, !elem_of_filter, Ht.
  intros [Hw Hn]. split; [exact Hw |].
  intros [Hr _]. apply Hn. split; [apply Hc, Hr | exact Hw].
Qed.

Lemma disabled_wallets_antitone_witness :
  get_disabled_wallets MoreExamples.wallets_db_more Examples.chain_B
  ⊆ get_disabled_wallets MoreExamples.wallets_db Examples.chain_B.
Proof.
  apply (disabled_wallets_antitone MoreExamples.wallets_db
           MoreExamples.wallets_db_more Examples.chain_B).
  - reflexivity.
  - intros x Hx. unfold MoreExamples.wallets_db in Hx. simpl in Hx.
    apply elem_of_singleton in Hx. subst x.
    unfold MoreExamples.wallets_db_more. simpl.
    apply elem_of_union. left. apply elem_of_singleton. reflexivity.
Defined.

(** X8: a chain that no wallet is related to, such as a chain just
    created or an id that is not in the chain table, has every wallet
    disabled. *)
Theorem disabled_wallets_of_unrelated_chain (db : Store.t) (chain : Chain.t) :
  (forall w, (Wallet.id w, Chain.id chain) ∉ wallet_chains db) ->
  get_disabled_wallets db chain = all_wallets db.
Proof.
  intros Hn. unfold get_disabled_wallets, wallet_set. apply set_eq. intros w.
  rewrite elem_of_difference, elem_of_filter. split; [tauto |].
  intros Hw. split; [exact Hw |]. intros [Hr _]. apply (Hn w), Hr.
Qed.

Lemma disabled_wallets_of_unrelated_chain_witness :
  get_disabled_wallets MoreExamples.wallets_db Examples.chain_A
  = all_wallets MoreExamples.wallets_db.
Proof.
  apply (disabled_wallets_of_unrelated_chain MoreExamples.wallets_db Examples.chain_A).
  intros w Hw. unfold MoreExamples.wallets_db in Hw. simpl in Hw.
  apply elem_of_singleton in Hw. inversion Hw.
Defined.

End ModelFacts.

(** ** Lawful comparisons and the order of every page *)

Section ComparisonFacts.

Import ChainsListView Comparison.

Lemma le_of_gt {A} (cmp : A -> A -> comparison) (a b : A) :
  lawful cmp -> cmp a b = Gt -> le cmp b a.
Proof. intros H Hg. unfold le. rewrite (swap cmp H a b), Hg. discriminate. Qed.

Lemma le_trans {A} (cmp : A -> A -> comparison) (a b c : A) :
  lawful cmp -> le cmp a b -> le cmp b c -> le cmp a c.
Proof.
  intros H Hab Hbc. unfold le in *.
  destruct (cmp a b) eqn:H1; [| | congruence].
  - rewrite (eq_alike cmp H a b c H1). exact Hbc.
  - destruct (cmp b c) eqn:H2; [| | congruence].
    + assert (cmp c b = Eq) as H3 by (rewrite (swap cmp H b c), H2; reflexivity).
      assert (cmp c a = Gt) as H4.
      { rewrite (eq_alike cmp H c b a H3), (swap cmp H a b), H1. reflexivity. }
      rewrite (swap cmp H c a), H4. discriminate.
    + rewrite (lt_chain cmp H a b c H1 H2). discriminate.
Qed.

Lemma lawful_opp {A} (cmp : A -> A -> comparison) :
  lawful cmp -> lawful (fun a b => CompOpp (cmp a b)).
Proof.
  intros H. constructor.
  - intros a b. rewrite (swap cmp H a b). reflexivity.
  - intros a b c H1 H2.
    assert (cmp b a = Lt) as H1' by (rewrite (swap cmp H a b); destruct (cmp a b); easy).
    assert (cmp c b = Lt) as H2' by (rewrite (swap cmp H b c); destruct (cmp b c); easy).
    rewrite (swap cmp H c a), (lt_chain cmp H c b a H2' H1'). reflexivity.
  - intros a b c H1.
    assert (cmp a b = Eq) as H1' by (destruct (cmp a b); easy).
    rewrite (eq_alike cmp H a b c H1'). reflexivity.
Qed.

Lemma lawful_lexicographic {A} (cmps : list (A -> A -> comparison)) :
  Forall lawful cmps -> lawful (lexicographic cmps).
Proof.
  induction 1 as [| cmp cmps Hc _ IH]; simpl.
  - constructor; intros; reflexivity || discriminate.
  - constructor.
    + intros a b. rewrite (swap cmp Hc a b).
      destruct (cmp a b); simpl; [apply (swap _ IH) | reflexivity | reflexivity].
    + intros a b c H1 H2.
      destruct (cmp a b) eqn:Hab; [| | discriminate H1].
      * rewrite (eq_alike cmp Hc a b c Hab).
        destruct (cmp b c); [| reflexivity | discriminate H2].
        apply (lt_chain _ IH a b c H1 H2).
      * destruct (cmp b c) eqn:Hbc; [| | discriminate H2].
        -- assert (cmp c b = Eq) as H3 by (rewrite (swap cmp Hc b c), Hbc; reflexivity).
           assert (cmp c a = Gt) as H4.
           { rewrite (eq_alike cmp Hc c b a H3), (swap cmp Hc a b), Hab. reflexivity. }
           rewrite (swap cmp Hc c a), H4. reflexivity.
        -- rewrite (lt_chain cmp Hc a b c Hab Hbc). reflexivity.
    + intros a b c H1.
      destruct (cmp a b) eqn:Hab; try discriminate H1.
      rewrite (eq_alike cmp Hc a b c Hab).
      destruct (cmp b c); [apply (eq_alike _ IH a b c H1) | reflexivity | reflexivity].
Qed.

Lemma lawful_Z_key {A} (key : A -> Z) :
  lawful (fun a b => Z.compare (key a) (key b)).
Proof.
  constructor.
  - intros a b. apply Z.compare_antisym.
  - intros a b c H1 H2. cbv beta in *. rewrite Z.compare_lt_iff in *. lia.
  - intros a b c H1. cbv beta in *. apply Z.compare_eq in H1. rewrite H1. reflexivity.
Qed.

Lemma lawful_string_key {A} (key : A -> string) :
  lawful (fun a b => String.compare (key a) (key b)).
Proof.
  constructor.
  - intros a b. apply String.compare_antisym.
  - intros a b c H1 H2. cbv beta in *. apply String_as_OT.cmp_lt.
    apply String_as_OT.cmp_lt in H1. apply String_as_OT.cmp_lt in H2.
    eapply String_as_OT.lt_trans; eassumption.
  - intros a b c H1. cbv beta in *. apply String.compare_eq_iff in H1.
    rewrite H1. reflexivity.
Qed.

(** The comparisons of the terms this view can order by are lawful. *)
Lemma order_terms_lawful (terms : list string) :
  Forall (fun term => term ∈ allowed_terms) terms ->
  exists cmps, order_terms terms = Ok cmps /\ Forall lawful cmps.
Proof.
  induction 1 as [| term terms Ht _ (cmps & IH & Hl)]; simpl.
  - exists []. split; [reflexivity | constructor].
  - rewrite IH. unfold allowed_terms in Ht. rewrite !elem_of_cons in Ht.
    destruct Ht as [-> | [-> | [-> | [-> | Ht]]]];
      try (eexists; split; [reflexivity |]; constructor; [| exact Hl]).
    + apply (lawful_Z_key Chain.relevance).
    + apply (lawful_string_key Chain.name).
    + apply lawful_opp, (lawful_Z_key Chain.relevance).
    + apply lawful_opp, (lawful_string_key Chain.name).
    + apply elem_of_nil in Ht. contradiction.
Qed.

Lemma sort_by_lawful {A} (cmp : A -> A -> comparison) (l : list A) :
  lawful cmp -> StronglySorted (le cmp) (sort_by cmp l).
Proof.
  intros H. apply sort_by_sorted.
  - intros a b Hab. exact Hab.
  - intros a b. apply le_of_gt, H.
  - intros a b c. apply le_trans, H.
Qed.

(** The queryset the filter backend hands on: sorted by the comparison
    of the terms in force. *)
Lemma filter_queryset_sorted (request : Request.t) (queryset : list Chain.t) :
  exists cmps,
    order_terms (get_ordering request) = Ok cmps /\ Forall lawful cmps /\
    filter_queryset request queryset = Ok (sort_by (lexicographic cmps) queryset).
Proof.
  destruct (get_ordering_allowed request) as [Hne Hall].
  destruct (order_terms_lawful _ Hall) as (cmps & Hc & Hl).
  exists cmps. split; [exact Hc |]. split; [exact Hl |].
  unfold filter_queryset, order_by.
  destruct (get_ordering request) as [| term terms]; [congruence |].
  rewrite Hc. reflexivity.
Qed.

(** X9: whatever the request, the page is sorted by the terms in force
    (the valid terms of the [ordering] parameter, or the default):
    along the page no chain compares greater than a later one, under
    the lexicographic comparison of those terms. *)
Theorem page_sorted_by_terms (int : string -> option Z)
    (db : Store.t) (request : Request.t) :
  exists cmps page,
    order_terms (get_ordering request) = Ok cmps /\
    get int db request = Ok page /\
    StronglySorted (le (lexicographic cmps)) (results page).
Proof.
  destruct (filter_queryset_sorted request (Store.chain_table db))
    as (cmps & Hc & Hl & Hf).
  exists cmps. eexists. split; [exact Hc |].
  split; [unfold get; rewrite Hf; reflexivity |]. simpl.
  apply paginate_queryset_sorted, sort_by_lawful, lawful_lexicographic, Hl.
Qed.

(** X10: with [ordering=-relevance] the chains come back by relevance
    descending. *)
Theorem ordering_relevance_descending (int : string -> option Z)
    (db : Store.t) (request : Request.t) :
  Request.get "ordering" (Request.query_params request) = Some "-relevance" ->
  exists page,
    get int db request = Ok page /\
    StronglySorted (fun a b => Chain.relevance b <= Chain.relevance a)
                   (results page).
Proof.
  intros Hp.
  assert (get_ordering request = ["-relevance"]) as Ho.
  { unfold get_ordering. rewrite Hp. reflexivity. }
  eexists. split.
  - unfold get, filter_queryset. rewrite Ho. reflexivity.
  - simpl. apply paginate_queryset_sorted. apply sort_by_sorted.
    + simpl. intros a b H.
      destruct (Z.compare_spec (Chain.relevance a) (Chain.relevance b));
        simpl in H; try lia. congruence.
    + simpl. intros a b H.
      destruct (Z.compare_spec (Chain.relevance a) (Chain.relevance b));
        simpl in H; try lia; discriminate H.
    + intros a b c. lia.
Qed.

Lemma ordering_relevance_descending_witness :
  exists page,
    get int_decimal Examples.chains_db MoreExamples.by_relevance_descending = Ok page /\
    StronglySorted (fun a b => Chain.relevance b <= Chain.relevance a)
                   (results page).
Proof.
  apply (ordering_relevance_descending int_decimal Examples.chains_db
           MoreExamples.by_relevance_descending).
  reflexivity.
Defined.

(** X11: the terms of the [ordering] parameter that name relevance or
    name are kept in the order given, white space around them dropped,
    and the other terms are left out; only when none is left does the
    default apply. *)
Theorem ordering_keeps_valid_terms (request : Request.t) (params : string) :
  Request.get "ordering" (Request.query_params request) = Some params ->
  let given := List.map Str.strip (Str.split "," params) in
  let kept := List.filter (fun term => bool_decide (term ∈ allowed_terms)) given in
  get_ordering request = match kept with [] => ordering | _ => kept end.
Proof.
  intros Hp given kept. unfold get_ordering. rewrite Hp.
  assert (remove_invalid_fields given = kept) as Hk.
  { unfold remove_invalid_fields, kept. apply filter_ext. intros term.
    destruct (term_valid ordering_fields term) eqn:Hv.
    - symmetry. apply bool_decide_eq_true, term_valid_allowed, Hv.
    - symmetry. apply bool_decide_eq_false. intros Hin. 
      assert (term_valid ordering_fields term = true) as Ht; [| congruence].
      unfold allowed_terms in Hin. rewrite !elem_of_cons in Hin.
      destruct Hin as [-> | [-> | [-> | [-> | Hin]]]]; try reflexivity.
      apply elem_of_nil in Hin. contradiction. }
  destruct (Str.truthy params) eqn:Ht.
  - fold given. rewrite Hk. destruct kept; reflexivity.
  - destruct params; [| discriminate Ht]. vm_compute. reflexivity.
Qed.

Lemma ordering_keeps_valid_terms_witness :
  get_ordering MoreExamples.mixed_ordering = ["-name"; "relevance"].
Proof.
  exact (ordering_keeps_valid_terms MoreExamples.mixed_ordering
           "short_name, -name ,relevance" eq_refl).
Defined.

End ComparisonFacts.

(** ** More on the pages of the chains list *)

Section PageFacts.

Import ChainsListView.

Variable int : string -> option Z.

Lemma get_offset_nonneg (request : Request.t) : 0 <= get_offset int request.
Proof.
  unfold get_offset, _positive_int.
  destruct (Request.get "offset" (Request.query_params request)) as [s |]; [| lia].
  destruct (int s) as [ret |]; [| lia].
  destruct (ret <? 0) eqn:Hneg; simpl; [lia |].
  rewrite andb_false_r. apply Z.ltb_ge in Hneg. exact Hneg.
Qed.

(** The early return of [paginate_queryset] changes nothing: the page
    is always the slice. *)
Lemma paginate_queryset_slice {A} (queryset : list A) (request : Request.t) :
  paginate_queryset int queryset request
  = take (Z.to_nat (get_limit int request))
         (drop (Z.to_nat (get_offset int request)) queryset).
Proof.
  pose proof (get_offset_nonneg request) as Ho.
  unfold paginate_queryset, slice.
  replace (get_offset int request + get_limit int request - get_offset int request)
    with (get_limit int request) by lia.
  destruct (Z.of_nat (length queryset) =? 0) eqn:Hz; simpl.
  - apply Z.eqb_eq in Hz. destruct queryset; [| simpl in Hz; lia].
    rewrite drop_nil, take_nil. reflexivity.
  - destruct (Z.of_nat (length queryset) <? get_offset int request) eqn:Hlt;
      [| reflexivity].
    apply Z.ltb_lt in Hlt. rewrite drop_ge by lia. rewrite take_nil. reflexivity.
Qed.

Lemma take_add_drop {A} (n m : nat) (l : list A) :
  take (n + m) l = (take n l ++ take m (drop n l))%list.
Proof.
  revert l. induction n as [| n IH]; intros [| x l]; simpl;
    try reflexivity; [rewrite take_nil; reflexivity |].
  rewrite IH. reflexivity.
Qed.

(** X12: a page is the slice of the ordered queryset that starts at the
    offset and has the length of the limit: element [i] of the page is
    element [offset + i] of the queryset, and the page has as many
    elements as are left there, up to the limit. *)
Theorem page_is_slice {A} (queryset : list A) (request : Request.t) :
  let limit := Z.to_nat (get_limit int request) in
  let offset := Z.to_nat (get_offset int request) in
  let page := paginate_queryset int queryset request in
  length page = Nat.min limit (length queryset - offset) /\
  forall i : nat, (i < limit)%nat -> page !! i = queryset !! (offset + i)%nat.
Proof.
  intros limit offset page. unfold page. rewrite paginate_queryset_slice.
  fold limit offset. split.
  - rewrite length_take, length_drop. reflexivity.
  - intros i Hi. rewrite lookup_take_lt by exact Hi. apply lookup_drop.
Qed.

(** X13: a limit that is zero, negative or not a number is not an
    error: the default page size of 10 applies; a limit from 1 to 100
    is taken as it is. *)
Theorem limit_fallback (request : Request.t) (s : string) :
  Request.get "limit" (Request.query_params request) = Some s ->
  (int s = None -> get_limit int request = 10) /\
  (forall n, int s = Some n -> n <= 0 -> get_limit int request = 10) /\
  (forall n, int s = Some n -> 1 <= n <= 100 -> get_limit int request = n).
Proof.
  intros Hs. unfold get_limit, _positive_int. rewrite Hs.
  split; [intros ->; reflexivity |]. split.
  - intros n -> Hn.
    destruct (n <? 0) eqn:Hneg; [reflexivity |].
    apply Z.ltb_ge in Hneg. assert (n = 0) as -> by lia. reflexivity.
  - intros n -> Hn.
    destruct (n <? 0) eqn:Hneg; [apply Z.ltb_lt in Hneg; lia |].
    destruct (n =? 0) eqn:Hz; [apply Z.eqb_eq in Hz; lia |]. simpl.
    unfold max_limit. f_equal. lia.
Qed.

(** X14: the offset is never negative and never an error: without the
    parameter, or with one that is negative or not a number, it is 0;
    any other offset is taken as it is, and one at or past the end
    gives an empty page. *)
Theorem offset_fallback {A} (queryset : list A) (request : Request.t) :
  0 <= get_offset int request /\
  (Request.get "offset" (Request.query_params request) = None ->
   get_offset int request = 0) /\
  (forall s, Request.get "offset" (Request.query_params request) = Some s ->
     match int s with
     | Some n => get_offset int request = if n <? 0 then 0 else n
     | None => get_offset int request = 0
     end) /\
  (Z.of_nat (length queryset) <= get_offset int request ->
   paginate_queryset int queryset request = []).
Proof.
  split; [apply get_offset_nonneg |]. split; [| split].
  - intros H. unfold get_offset. rewrite H. reflexivity.
  - intros s H. unfold get_offset, _positive_int. rewrite H.
    destruct (int s) as [n |]; [| reflexivity].
    destruct (n <? 0); simpl; [reflexivity |].
    rewrite andb_false_r. reflexivity.
  - intros H. rewrite paginate_queryset_slice, drop_ge by lia. apply take_nil.
Qed.

(** X15: the count of a response is the number of chains in the table,
    whatever the request asks for, and every chain of the page is a
    chain of the table. *)
Theorem count_is_total (db : Store.t) (request : Request.t) :
  exists page,
    get int db request = Ok page /\
    count page = Z.of_nat (length (Store.chain_table db)) /\
    results page ⊆ Store.chain_table db.
Proof.
  destruct (get_ok int db request) as (qs & _ & Hp & Hg).
  eexists. split; [exact Hg |]. simpl. split.
  - rewrite (Permutation_length Hp). reflexivity.
  - rewrite paginate_queryset_slice. intros c Hc.
    apply (elem_of_Permutation_proper c _ _ Hp).
    eapply subseteq_drop, subseteq_take, Hc.
Qed.

(** X16: pages follow one another without gap or overlap: for two
    requests with the same limit, the second starting where the first
    ends, the two pages put together are the slice of twice the
    limit. *)
Theorem consecutive_pages {A} (queryset : list A) (first second : Request.t) :
  get_limit int second = get_limit int first ->
  get_offset int second = get_offset int first + get_limit int first ->
  (paginate_queryset int queryset first
   ++ paginate_queryset int queryset second)%list
  = take (2 * Z.to_nat (get_limit int first))
         (drop (Z.to_nat (get_offset int first)) queryset).
Proof.
  intros Hl Ho. rewrite !paginate_queryset_slice, Hl, Ho.
  pose proof (get_offset_nonneg first) as H1.
  pose proof (get_limit_bounds int first) as H2.
  replace (Z.to_nat (get_offset int first + get_limit int first))
    with (Z.to_nat (get_offset int first) + Z.to_nat (get_limit int first))%nat
    by lia.
  rewrite <- drop_drop.
  replace (2 * Z.to_nat (get_limit int first))%nat
    with (Z.to_nat (get_limit int first) + Z.to_nat (get_limit int first))%nat
    by lia.
  symmetry. apply take_add_drop.
Qed.

End PageFacts.

Section PageWitnesses.

Import ChainsListView.

Lemma limit_fallback_witness :
  get_limit int_decimal MoreExamples.limit_0 = 10.
Proof.
  apply (proj1 (proj2 (limit_fallback int_decimal MoreExamples.limit_0 "0" eq_refl))
           0).
  - reflexivity.
  - lia.
Defined.

Lemma consecutive_pages_witness :
  (paginate_queryset int_decimal Examples.three_chains MoreExamples.first_page
   ++ paginate_queryset int_decimal Examples.three_chains MoreExamples.second_page)%list
  = Examples.three_chains.
Proof.
  exact (consecutive_pages int_decimal Examples.three_chains
           MoreExamples.first_page MoreExamples.second_page eq_refl eq_refl).
Defined.

End PageWitnesses.

(** ** The size of a page *)

Section PageSize.

Import ChainsListView.

(** C5: without a limit the page size is 10; a requested limit above
    100 is clamped to 100, not rejected. The page is the slice of the
    ordered chains that starts at the offset and has the length of the
    limit, so it holds exactly as many records as the limit allows and
    the table has left from the offset on, and never more than 100. *)
Theorem page_size_default_and_clamp (int : string -> option Z)
    (db : Store.t) (request : Request.t) :
  (Request.get "limit" (Request.query_params request) = None ->
   get_limit int request = 10) /\
  (forall s n,
     Request.get "limit" (Request.query_params request) = Some s ->
     int s = Some n -> 100 < n -> get_limit int request = 100) /\
  exists queryset page,
    filter_queryset request (Store.chain_table db) = Ok queryset /\
    Permutation queryset (Store.chain_table db) /\
    get int db request = Ok page /\
    results page
    = take (Z.to_nat (get_limit int request))
           (drop (Z.to_nat (get_offset int request)) queryset) /\
    length (results page)
    = Nat.min (Z.to_nat (get_limit int request))
              (length (Store.chain_table db) - Z.to_nat (get_offset int request)) /\
    Z.of_nat (length (results page)) <= get_limit int request /\
    (length (results page) <= 100)%nat.
Proof.
  split; [| split].
  - intros H. unfold get_limit. rewrite H. reflexivity.
  - intros s n Hs Hn Hgt. apply (get_limit_clamped int request s n Hs Hn Hgt).
  - destruct (get_ok int db request) as (qs & Hf & Hperm & Hget).
    exists qs. eexists. split; [exact Hf |]. split; [exact Hperm |].
    split; [exact Hget |]. simpl.
    pose proof (get_limit_bounds int request) as Hb. unfold max_limit in Hb.
    rewrite paginate_queryset_slice.
    split; [reflexivity |].
    rewrite length_take, length_drop, (Permutation_length Hperm).
    split; [reflexivity |]. split; lia.
Qed.

Lemma page_size_default_and_clamp_witness :
  get_limit int_decimal Examples.plain_request = 10 /\
  get_limit int_decimal Examples.limit_500 = 100 /\
  (exists page,
     get int_decimal MoreExamples.many_chains_db Examples.limit_500 = Ok page /\
     length (results page) = 100%nat) /\
  (exists page,
     get int_decimal MoreExamples.many_chains_db Examples.plain_request = Ok page /\
     length (results page) = 10%nat).
Proof.
  split; [| split; [| split]].
  - apply (proj1 (page_size_default_and_clamp int_decimal Examples.chains_db
                    Examples.plain_request)).
    reflexivity.
  - apply (proj1 (proj2 (page_size_default_and_clamp int_decimal Examples.chains_db
                           Examples.limit_500)) "500" 500).
    + reflexivity.
    + reflexivity.
    + lia.
  - destruct (proj2 (proj2 (page_size_default_and_clamp int_decimal
                              MoreExamples.many_chains_db Examples.limit_500)))
      as (queryset & page & _ & _ & Hget & _ & Hlen & _).
    exists page. split; [exact Hget |]. rewrite Hlen. vm_compute. reflexivity.
  - destruct (proj2 (proj2 (page_size_default_and_clamp int_decimal
                              MoreExamples.many_chains_db Examples.plain_request)))
      as (queryset & page & _ & _ & Hget & _ & Hlen & _).
    exists page. split; [exact Hget |]. rewrite Hlen. vm_compute. reflexivity.
Defined.

End PageSize.

(** ** The detail views *)

Section DetailFacts.

Import ChainsDetailView.

Lemma get_object_found (has_value : Chain.t -> bool) (queryset : list Chain.t)
    (obj : Chain.t) :
  get_object has_value queryset = Ok obj ->
  obj ∈ queryset /\ has_value obj = true.
Proof.
  unfold get_object.
  destruct (List.filter has_value queryset) as [| c [| c' l]] eqn:Hf;
    intros H; inversion H; subst c.
  assert (In obj (List.filter has_value queryset)) as Hin by (rewrite Hf; left; reflexivity).
  apply filter_In in Hin. destruct Hin as [Hin Hv].
  split; [apply list_elem_of_In, Hin | exact Hv].
Qed.

Lemma get_object_404 (has_value : Chain.t -> bool) (queryset : list Chain.t) :
  get_object has_value queryset = Err Http404 <->
  forall c, c ∈ queryset -> has_value c = false.
Proof.
  unfold get_object. split.
  - destruct (List.filter has_value queryset) as [| c [| c' l]] eqn:Hf;
      intros H; inversion H.
    intros c Hc. destruct (has_value c) eqn:Hv; [| reflexivity].
    assert (In c (List.filter has_value queryset)) as Hin.
    { apply filter_In. split; [apply list_elem_of_In, Hc | exact Hv]. }
    rewrite Hf in Hin. destruct Hin.
  - intros Hall.
    assert (List.filter has_value queryset = []) as ->; [| reflexivity].
    induction queryset as [| c l IH]; [reflexivity |]. simpl.
    rewrite (Hall c) by (left). apply IH. intros c' Hc'. apply Hall. right. exact Hc'.
Qed.

(** With a unique key, the rows that have the key of a row of the table
    are that row alone. *)
Lemma filter_unique_key {K} (key : Chain.t -> K) (eqb : K -> K -> bool)
    (queryset : list Chain.t) (obj : Chain.t) :
  (forall x y, eqb x y = true <-> x = y) ->
  NoDup (List.map key queryset) -> obj ∈ queryset ->
  List.filter (fun c => eqb (key c) (key obj)) queryset = [obj].
Proof.
  intros Heqb Hnd Hin. induction queryset as [| c l IH]; [inversion Hin |].
  simpl in Hnd. apply NoDup_cons in Hnd. destruct Hnd as [Hc Hnd]. simpl.
  apply elem_of_cons in Hin. destruct Hin as [-> | Hin].
  - assert (eqb (key c) (key c) = true) as -> by (apply Heqb; reflexivity).
    f_equal.
    assert (forall l', key c ∉ List.map key l' ->
                       List.filter (fun c0 => eqb (key c0) (key c)) l' = []) as Hnone.
    { induction l' as [| d l' IH']; [reflexivity |]. simpl. intros Hd.
      apply not_elem_of_cons in Hd. destruct Hd as [Hne Hd].
      destruct (eqb (key d) (key c)) eqn:He.
      - apply Heqb in He. congruence.
      - apply IH', Hd. }
    apply Hnone, Hc.
  - destruct (eqb (key c) (key obj)) eqn:He.
    + apply Heqb in He. exfalso. apply Hc. rewrite He.
      apply list_elem_of_fmap. exists obj. split; [reflexivity | exact Hin].
    + apply IH; assumption.
Qed.

(** X17: the detail view by id answers with a chain of the table that
    has the id asked for, and with a 404 exactly when no chain of the
    table has it. *)
Theorem detail_by_id (db : Store.t) (pk : N) :
  (forall c, get db pk = Ok c -> c ∈ Store.chain_table db /\ Chain.id c = pk) /\
  (get db pk = Err Http404 <->
   forall c, c ∈ Store.chain_table db -> Chain.id c <> pk).
Proof.
  unfold get. split.
  - intros c H. apply get_object_found in H. destruct H as [Hin Hv].
    split; [exact Hin | apply N.eqb_eq, Hv].
  - rewrite get_object_404. split; intros H c Hc.
    + apply N.eqb_neq, H, Hc.
    + apply N.eqb_neq, H, Hc.
Qed.

(** X18: since the id is the primary key, every chain of the table is
    the answer of the detail view at its id; the view never finds
    several chains. *)
Theorem detail_by_id_round_trip (db : Store.t) (c : Chain.t) :
  primary_key db -> c ∈ Store.chain_table db ->
  get db (Chain.id c) = Ok c /\
  forall pk, get db pk <> Err MultipleObjectsReturned.
Proof.
  intros Hpk Hin. unfold get, get_object. split.
  - rewrite (filter_unique_key Chain.id N.eqb _ c N.eqb_eq Hpk Hin). reflexivity.
  - intros pk.
    destruct (List.filter (fun c0 => N.eqb (Chain.id c0) pk) (Store.chain_table db))
      as [| d [| d' l]] eqn:Hf; try discriminate.
    exfalso.
    assert (d ∈ Store.chain_table db /\ Chain.id d = pk) as [Hd Hdk].
    { assert (In d (List.filter (fun c0 => N.eqb (Chain.id c0) pk)
                                (Store.chain_table db))) as H
          by (rewrite Hf; left; reflexivity).
      apply filter_In in H. destruct H as [H1 H2].
      split; [apply list_elem_of_In, H1 | apply N.eqb_eq, H2]. }
    subst pk.
    rewrite (filter_unique_key Chain.id N.eqb _ d N.eqb_eq Hpk Hd) in Hf.
    discriminate Hf.
Qed.

Lemma detail_by_id_round_trip_witness :
  get Examples.chains_db 3 = Ok Examples.chain_C.
Proof.
  refine (proj1 (detail_by_id_round_trip Examples.chains_db Examples.chain_C _ _)).
  - unfold primary_key. simpl. repeat constructor;
      rewrite ?elem_of_cons; intros H;
      repeat (destruct H as [H | H]; [discriminate H |]);
      apply elem_of_nil in H; exact H.
  - right. right. left.
Defined.

(** X19: the detail view by short name compares exactly: the chain it
    answers with has the very short name asked for, a name that
    differs from every short name of the table, be it only in case,
    gets a 404, and every chain of the table is the answer at its own
    short name, short names being unique. *)
Theorem detail_by_short_name (db : Store.t) (short_name : string) :
  (forall c, get_by_short_name db short_name = Ok c ->
             c ∈ Store.chain_table db /\ Chain.short_name c = short_name) /\
  (get_by_short_name db short_name = Err Http404 <->
   forall c, c ∈ Store.chain_table db -> Chain.short_name c <> short_name) /\
  (short_name_unique db ->
   forall c, c ∈ Store.chain_table db ->
             get_by_short_name db (Chain.short_name c) = Ok c).
Proof.
  unfold get_by_short_name. split; [| split].
  - intros c H. apply get_object_found in H. destruct H as [Hin Hv].
    split; [exact Hin | apply String.eqb_eq, Hv].
  - rewrite get_object_404. split; intros H c Hc.
    + apply String.eqb_neq, H, Hc.
    + apply String.eqb_neq, H, Hc.
  - intros Hu c Hin. unfold get_object.
    rewrite (filter_unique_key Chain.short_name String.eqb _ c String.eqb_eq Hu Hin).
    reflexivity.
Qed.

End DetailFacts.

(** ** More on the safe-apps list *)

Section SafeAppsMore.

Import Store SafeAppsListView.

Lemma filter_sublist {A} (f : A -> bool) (l : list A) :
  List.filter f l `sublist_of` l.
Proof.
  induction l as [| x l IH]; simpl; [constructor |].
  destruct (f x); [apply sublist_skip | apply sublist_cons]; exact IH.
Qed.

Lemma filter_all {A} (f : A -> bool) (l : list A) :
  Forall (fun x => f x = true) (List.filter f l).
Proof. apply Forall_forall. intros x Hx. apply list_elem_of_In, filter_In in Hx. apply Hx. Qed.

(** X20: whatever the request, the apps returned are visible apps of
    the table, in the order of the table and none twice over: the
    result is a sub-list of the visible apps, so a hidden app is never
    returned. *)
Theorem get_queryset_visible_sublist (db : Store.t) (request : Request.t) :
  get_queryset db request `sublist_of` List.filter visible (safe_app_table db) /\
  Forall (fun a => visible a = true) (get_queryset db request).
Proof.
  unfold get_queryset.
  destruct (Request.get "chainId" (Request.query_params request)) as [nid |].
  - destruct (Str.isdigit nid).
    + split; [apply filter_sublist |].
      apply Forall_forall. intros a Ha.
      apply list_elem_of_In, filter_In in Ha. destruct Ha as [Ha _].
      apply filter_In in Ha. apply Ha.
    + split; [reflexivity | apply filter_all].
  - split; [reflexivity | apply filter_all].
Qed.

Lemma get_last (key v : string) (q : list (string * string)) :
  Request.get key (q ++ [(key, v)])%list = Some v.
Proof.
  induction q as [| [k w] q IH]; simpl.
  - rewrite String.eqb_refl. reflexivity.
  - rewrite IH. reflexivity.
Qed.

(** X21: when [chainId] is given several times the last one decides:
    the result is that of the request with the last [chainId] alone. *)
Theorem get_queryset_last_chain_id (db : Store.t) (q : list (string * string))
    (v : string) :
  get_queryset db (Request.mk (q ++ [("chainId", v)])%list)
  = get_queryset db (Request.mk [("chainId", v)]).
Proof.
  unfold get_queryset. simpl Request.query_params. rewrite get_last.
  reflexivity.
Qed.

End SafeAppsMore.

(** ** More on the cache *)

Section CacheMore.

Import Store SafeAppsListView CacheLog.

Variable query_params_of : string -> list (string * string).

Abbreviation get := (SafeAppsListView.get query_params_of).
Abbreviation step := (SafeAppsListView.step query_params_of).
Abbreviation run := (SafeAppsListView.run query_params_of).
Abbreviation view_request := (SafeAppsListView.view_request query_params_of).
Abbreviation snapshots := (CacheLog.snapshots query_params_of).
Abbreviation responses := (CacheLog.responses query_params_of).
Abbreviation provenance := (CacheLog.provenance query_params_of).
Abbreviation fresh_source := (CacheLog.fresh_source query_params_of).

(** X22: once the 10 minutes of an entry are over it is replaced. A
    request made 600 seconds or more after the request that stored the
    entry is answered from the data as it is then, and the answer is
    stored for another 600 seconds, provided no request with the same
    key was made in between at or after the expiry; changes of the
    data and requests with other keys may happen at any time in
    between. *)
Theorem refreshed_after_timeout (w : World) (t0 : Z) (request : HttpRequest)
    (evs : list event) (t1 : Z) :
  cached t0 (caches w) request = None ->
  requests_before (cache_key request) (t0 + cache_timeout) evs ->
  t0 + cache_timeout <= t1 ->
  let w1 := fst (step w (Request_at t0 request)) in
  let w2 := fst (run w1 evs) in
  let w3 := fst (step w2 (Request_at t1 request)) in
  snd (step w2 (Request_at t1 request))
  = Some (list_response (db w2) (view_request request)) /\
  region (caches w3) !! cache_key request
  = Some {| payload := list_response (db w2) (view_request request);
            expires := t1 + cache_timeout |}.
Proof.
  intros Hmiss Hevs Ht1 w1 w2 w3.
  destruct (get_miss query_params_of t0 (db w) (caches w) request Hmiss)
    as [_ Hentry].
  set (e := {| payload := list_response (db w) (view_request request);
               expires := t0 + cache_timeout |}) in *.
  assert (region (caches w2) !! cache_key request = Some e) as H2.
  { unfold w2. apply run_keeps_entry; [| exact Hevs].
    unfold w1. rewrite caches_step_request. exact Hentry. }
  assert (cached t1 (caches w2) request = None) as Hstale.
  { unfold cached. rewrite H2. simpl.
    destruct (t1 <? t0 + cache_timeout) eqn:Hlt; [| reflexivity].
    apply Z.ltb_lt in Hlt. lia. }
  destruct (get_miss query_params_of t1 (db w2) (caches w2) request Hstale)
    as [Hfst Hnew].
  split.
  - rewrite snd_step_request, Hfst. reflexivity.
  - unfold w3. rewrite caches_step_request. exact Hnew.
Qed.

(** X23: the endpoint keeps to its own cache region: a request leaves
    every other region as it is, and a request answered from the cache
    leaves all of them as they are. *)
Theorem other_regions_untouched (now : Z) (db : Store.t) (caches : Caches)
    (request : HttpRequest) :
  (forall alias, alias <> cache_alias ->
                 snd (get now db caches request) !! alias = caches !! alias) /\
  (forall e, cached now caches request = Some e ->
             get now db caches request = (payload e, caches)).
Proof.
  unfold SafeAppsListView.get. split.
  - intros alias Hne. destruct (cached now caches request); simpl; [reflexivity |].
    apply lookup_insert_ne. congruence.
  - intros e ->. reflexivity.
Qed.

(** *** Where a payload comes from *)

Lemma provenance_mono (seen seen' : list (Z * Store.t)) (caches : Caches) :
  seen ⊆ seen' -> provenance seen caches -> provenance seen' caches.
Proof.
  intros Hs Hp key e He. destruct (Hp key e He) as (db0 & Hin & Hpay).
  exists db0. split; [apply Hs, Hin | exact Hpay].
Qed.

(** Requests with the same key are the same request to the view. *)
Lemma view_request_of_key (r1 r2 : HttpRequest) :
  cache_key r1 = cache_key r2 -> view_request r1 = view_request r2.
Proof.
  unfold cache_key, SafeAppsListView.view_request. intros H.
  inversion H as [[Huri Hvary]]. rewrite Huri. reflexivity.
Qed.

Lemma step_provenance (seen : list (Z * Store.t)) (w : World) (ev : event) :
  provenance seen (caches w) ->
  provenance (seen ++ [(time ev, db (fst (step w ev)))])%list
             (caches (fst (step w ev))).
Proof.
  intros Hp. destruct ev as [now request | now db'].
  - rewrite caches_step_request, db_step_request. unfold SafeAppsListView.get.
    destruct (cached now (caches w) request) as [e |] eqn:Hc; simpl.
    + eapply provenance_mono; [| exact Hp]. intros x Hx. apply elem_of_app. left. exact Hx.
    + intros key e He. rewrite region_insert in He.
      destruct (decide (cache_key request = key)) as [Hk | Hk].
      * subst key. rewrite lookup_insert_eq in He. inversion He; subst e. simpl.
        exists (db w). split.
        -- apply elem_of_app. right. apply list_elem_of_singleton.
           f_equal. lia.
        -- intros request' Hk'. rewrite (view_request_of_key _ _ Hk').
           reflexivity.
      * rewrite lookup_insert_ne in He by exact Hk.
        destruct (Hp key e He) as (db0 & Hin & Hpay). exists db0.
        split; [apply elem_of_app; left; exact Hin | exact Hpay].
  - simpl. eapply provenance_mono; [| exact Hp].
    intros x Hx. apply elem_of_app. left. exact Hx.
Qed.

Lemma fresh_source_mono (seen seen' : list (Z * Store.t))
    (r : Z * HttpRequest * list SafeApp) :
  seen ⊆ seen' -> fresh_source seen r -> fresh_source seen' r.
Proof.
  intros Hs (t' & db0 & Hin & Ht & Hpay). exists t', db0.
  split; [apply Hs, Hin | split; assumption].
Qed.

Lemma responses_fresh (evs : list event) :
  forall (w : World) (seen : list (Z * Store.t)) (from : Z),
    provenance seen (caches w) ->
    Forall (fun p => fst p <= from) seen ->
    monotone from evs ->
    Forall (fresh_source (seen ++ snapshots w evs)%list) (responses w evs).
Proof.
  induction evs as [| ev evs IH]; intros w seen from Hp Hseen Hmono; [constructor |].
  destruct Hmono as [Hfrom Hmono].
  set (w1 := fst (step w ev)).
  set (seen1 := (seen ++ [(time ev, db w1)])%list).
  assert (provenance seen1 (caches w1)) as Hp1 by (apply step_provenance, Hp).
  assert (Forall (fun p => fst p <= time ev) seen1) as Hseen1.
  { apply Forall_app. split.
    - eapply Forall_impl; [exact Hseen |]. intros p Hle. simpl in *. lia.
    - constructor; [simpl; lia | constructor]. }
  pose proof (IH w1 seen1 (time ev) Hp1 Hseen1 Hmono) as Hrest.
  assert ((seen1 ++ snapshots w1 evs)%list = (seen ++ snapshots w (ev :: evs))%list)
    as Heq.
  { unfold seen1. rewrite <- app_assoc. reflexivity. }
  rewrite Heq in Hrest.
  destruct ev as [now request | now db'].
  - assert ((now, db w) ∈ (seen ++ snapshots w (Request_at now request :: evs))%list)
      as Hhead.
    { apply elem_of_app. right. cbn [CacheLog.snapshots].
      rewrite db_step_request. left. }
    cbn [CacheLog.responses]. rewrite snd_step_request. fold w1.
    constructor; [| exact Hrest].
    unfold CacheLog.fresh_source. simpl fst. simpl snd.
    unfold SafeAppsListView.get.
    destruct (cached now (caches w) request) as [e |] eqn:Hc; simpl.
    + unfold cached in Hc.
      destruct (region (caches w) !! cache_key request) as [e' |] eqn:He;
        [| discriminate Hc].
      destruct (now <? expires e') eqn:Hlt; inversion Hc; subst e'.
      apply Z.ltb_lt in Hlt.
      destruct (Hp _ _ He) as (db0 & Hin & Hpay).
      exists (expires e - cache_timeout), db0. split.
      * apply elem_of_app. left. exact Hin.
      * split; [| apply Hpay; reflexivity].
        rewrite Forall_forall in Hseen. specialize (Hseen _ Hin). simpl in *. lia.
    + exists now, (db w). split; [exact Hhead |].
      split; [unfold cache_timeout; lia | reflexivity].
  - cbn [CacheLog.responses]. simpl. exact Hrest.
Qed.

(** X24: the cache is never more than 10 minutes behind. In a run that
    starts with an empty cache and whose event times do not go back,
    every payload returned for a request is the response of the view
    on the database as it stood at an event of the run at most as late
    as the request and less than 600 seconds before it. *)
Theorem payloads_at_most_ten_minutes_old (w : World) (evs : list event) (from : Z) :
  caches w = ∅ -> monotone from evs ->
  Forall (fun r : Z * HttpRequest * list SafeApp =>
            exists t' db0,
              (t', db0) ∈ snapshots w evs /\
              fst (fst r) - cache_timeout < t' <= fst (fst r) /\
              snd r = list_response db0 (view_request (snd (fst r))))
         (responses w evs).
Proof.
  intros Hempty Hmono.
  assert (provenance [] (caches w)) as Hp.
  { intros key e He. rewrite Hempty in He. unfold region in He.
    rewrite lookup_empty in He. simpl in He. rewrite lookup_empty in He.
    discriminate He. }
  assert (Forall (fun p : Z * Store.t => fst p <= from) []) as Hseen by constructor.
  exact (responses_fresh evs w [] from Hp Hseen Hmono).
Qed.

End CacheMore.

Section CacheMoreExamples.

Import Store SafeAppsListView CacheLog.

Lemma refreshed_after_timeout_witness :
  snd (step Examples.query_params_of
            (fst (run Examples.query_params_of
                      (fst (step Examples.query_params_of Examples.cold_world
                                 (Request_at 0 Examples.get_chain_4)))
                      [Write_at 605 Examples.apps_db_later;
                       Request_at 606 Examples.get_chain_10]))
            (Request_at 610 Examples.get_chain_4))
  = Some [Examples.app_4; Store.mkSafeApp 3 true [10; 4]%N None].
Proof.
  assert (requests_before (cache_key Examples.get_chain_4) (0 + cache_timeout)
            [Write_at 605 Examples.apps_db_later;
             Request_at 606 Examples.get_chain_10]) as Hevs.
  { constructor; [exact I |]. constructor; [| constructor].
    intros H. inversion H. }
  assert (0 + cache_timeout <= 610) as Ht by (vm_compute; discriminate).
  exact (proj1 (refreshed_after_timeout Examples.query_params_of
                  Examples.cold_world 0 Examples.get_chain_4
                  [Write_at 605 Examples.apps_db_later;
                   Request_at 606 Examples.get_chain_10] 610 eq_refl Hevs Ht)).
Defined.

Lemma payloads_at_most_ten_minutes_old_witness :
  Forall (fun r : Z * HttpRequest * list SafeApp =>
            exists t' db0,
              (t', db0) ∈ snapshots Examples.query_params_of Examples.cold_world
                                    Examples.stale_then_fresh /\
              fst (fst r) - cache_timeout < t' <= fst (fst r) /\
              snd r = list_response db0
                        (view_request Examples.query_params_of (snd (fst r))))
         (responses Examples.query_params_of Examples.cold_world
                    Examples.stale_then_fresh).
Proof.
  apply (payloads_at_most_ten_minutes_old Examples.query_params_of
           Examples.cold_world Examples.stale_then_fresh 0).
  - reflexivity.
  - simpl. lia.
Defined.

End CacheMoreExamples.

(** ** The display name of a chain *)

Section DisplayFacts.

Import PosixPath ChainModel.

Lemma lacks_append_sep (c : ascii) (a r : string) :
  lacks c (a ++ String c r) = false.
Proof.
  unfold lacks. induction a as [| x a IH].
  - rewrite append_nil_l. simpl. rewrite Ascii.eqb_refl. reflexivity.
  - rewrite append_cons. simpl. rewrite IH. apply andb_false_r.
Qed.

(** A text is cut at its last [c] in one way only. *)
Lemma last_sep_unique (c : ascii) (a a' r r' : string) :
  lacks c r = true -> lacks c r' = true ->
  a ++ String c r = a' ++ String c r' -> a = a' /\ r = r'.
Proof.
  intros Hr Hr'. revert a'. induction a as [| x a IH]; intros [| y a'] H.
  - rewrite !append_nil_l in H. inversion H. split; reflexivity.
  - rewrite append_nil_l, append_cons in H. injection H as Hx Hrest.
    subst y r. rewrite lacks_append_sep in Hr. discriminate Hr.
  - rewrite append_nil_l, append_cons in H. injection H as Hx Hrest.
    subst x r'. rewrite lacks_append_sep in Hr'. discriminate Hr'.
  - rewrite !append_cons in H. injection H as Hx Hrest.
    destruct (IH a' Hrest) as [-> ->]. subst y. split; reflexivity.
Qed.

Lemma length_append (s t : string) :
  String.length (s ++ t) = (String.length s + String.length t)%nat.
Proof.
  induction s as [| x s IH]; [reflexivity |].
  rewrite append_cons. simpl. rewrite IH. reflexivity.
Qed.

Lemma append_inj_l (s1 s2 t : string) : s1 ++ t = s2 ++ t -> s1 = s2.
Proof.
  revert s2. induction s1 as [| x s1 IH]; intros [| y s2] H.
  - reflexivity.
  - apply (f_equal String.length) in H.
    rewrite append_nil_l, append_cons in H. simpl in H.
    rewrite length_append in H. lia.
  - apply (f_equal String.length) in H.
    rewrite append_nil_l, append_cons in H. simpl in H.
    rewrite length_append in H. lia.
  - rewrite !append_cons in H. injection H as Hx Hrest.
    rewrite (IH s2 Hrest), Hx. reflexivity.
Qed.

Lemma string_of_uint_lacks_equals (d : Decimal.uint) :
  lacks "=" (NilEmpty.string_of_uint d) = true.
Proof. induction d; simpl; try reflexivity; exact IHd. Qed.

Lemma str_of_N_lacks_equals (n : N) : lacks "=" (str_of_N n) = true.
Proof.
  unfold str_of_N, NilZero.string_of_uint.
  destruct (N.to_uint n); try reflexivity; apply string_of_uint_lacks_equals.
Qed.

(** X25: the display name of a chain tells its name and its id: two
    chains are displayed alike exactly when they have the same name
    and the same id. *)
Theorem chain_display_name_eq_iff (c1 c2 : Chain.t) :
  chain__str__ c1 = chain__str__ c2 <->
  Chain.name c1 = Chain.name c2 /\ Chain.id c1 = Chain.id c2.
Proof.
  unfold chain__str__. split.
  - intros H.
    change (" | chain_id=" ++ str_of_N (Chain.id c1))
      with (" | chain_id" ++ String "=" (str_of_N (Chain.id c1))) in H.
    change (" | chain_id=" ++ str_of_N (Chain.id c2))
      with (" | chain_id" ++ String "=" (str_of_N (Chain.id c2))) in H.
    rewrite <- !append_assoc in H.
    apply last_sep_unique in H; try apply str_of_N_lacks_equals.
    destruct H as [Hn Hi]. split.
    + apply append_inj_l in Hn. exact Hn.
    + apply str_of_N_inj, Hi.
  - intros [-> ->]. reflexivity.
Qed.

End DisplayFacts.
